(** * calc_electromagnetic.py: electromagnetic interaction-rate tables

    A shallow embedding of [calc_electromagnetic.py] (CRPropa3-data): the four
    cross sections, the catalogue look-ups [getTabulatedXS], [getSmin] and
    [getEmin], the density-integral cache [calculateDensityIntegral] and the
    driver [process], together with the properties of the specification that
    can be settled on them.

    Numbers.  A Python/numpy float is modelled as an exact real number or one
    of the three special values of IEEE arithmetic (two infinities and
    not-a-number).  Rounding and overflow are not modelled, and zero carries no
    sign: a nonzero finite number divided by zero gives the infinity of the
    sign of the numerator, as numpy does for a positive zero. *)

From Stdlib Require Import Reals Lra Lia ZArith List Ascii String.
From stdpp Require Import gmap strings list fin_maps sorting.

Local Open Scope R_scope.

(* ===================================================================== *)
(** ** Floating-point values *)
(* ===================================================================== *)

Inductive npfloat : Type :=
| Fin (x : R)
| PInf
| NInf
| NaN.

Coercion Fin : R >-> npfloat.

Definition is_zero (x : R) : bool := if Req_dec_T x 0 then true else false.
Definition is_pos (x : R) : bool := if Rlt_dec 0 x then true else false.
Definition is_neg (x : R) : bool := if Rlt_dec x 0 then true else false.

Definition fneg (x : npfloat) : npfloat :=
  match x with
  | Fin a => Fin (- a)
  | PInf => NInf
  | NInf => PInf
  | NaN => NaN
  end.

Definition fadd (x y : npfloat) : npfloat :=
  match x, y with
  | NaN, _ | _, NaN => NaN
  | Fin a, Fin b => Fin (a + b)
  | PInf, NInf | NInf, PInf => NaN
  | PInf, _ | _, PInf => PInf
  | NInf, _ | _, NInf => NInf
  end.

Definition fsub (x y : npfloat) : npfloat := fadd x (fneg y).

(** the infinity of the sign of [a], and not-a-number for [a = 0] *)
Definition inf_of_sign (a : R) : npfloat :=
  if is_zero a then NaN else if is_pos a then PInf else NInf.

Definition fmul (x y : npfloat) : npfloat :=
  match x, y with
  | NaN, _ | _, NaN => NaN
  | Fin a, Fin b => Fin (a * b)
  | Fin a, PInf | PInf, Fin a => inf_of_sign a
  | Fin a, NInf | NInf, Fin a => inf_of_sign (- a)
  | PInf, PInf | NInf, NInf => PInf
  | PInf, NInf | NInf, PInf => NInf
  end.

Definition fdiv (x y : npfloat) : npfloat :=
  match x, y with
  | NaN, _ | _, NaN => NaN
  | Fin a, Fin b => if is_zero b then inf_of_sign a else Fin (a / b)
  | Fin _, (PInf | NInf) => Fin 0
  | PInf, Fin b => if is_neg b then NInf else PInf
  | NInf, Fin b => if is_neg b then PInf else NInf
  | (PInf | NInf), (PInf | NInf) => NaN
  end.

(** [x ** n] for a literal exponent [n] *)
Definition fpow (x : npfloat) (n : nat) : npfloat :=
  match n with
  | O => Fin 1
  | _ => match x with
         | Fin a => Fin (a ^ n)
         | PInf => PInf
         | NInf => if Nat.even n then PInf else NInf
         | NaN => NaN
         end
  end.

(** [np.sqrt] *)
Definition fsqrt (x : npfloat) : npfloat :=
  match x with
  | Fin a => if is_neg a then NaN else Fin (sqrt a)
  | PInf => PInf
  | NInf | NaN => NaN
  end.

(** [np.log] *)
Definition flog (x : npfloat) : npfloat :=
  match x with
  | Fin a => if is_pos a then Fin (ln a) else if is_zero a then NInf else NaN
  | PInf => PInf
  | NInf | NaN => NaN
  end.

(** [np.log1p] *)
Definition flog1p (x : npfloat) : npfloat :=
  match x with
  | Fin a => if is_pos (1 + a) then Fin (ln (1 + a))
             else if is_zero (1 + a) then NInf else NaN
  | PInf => PInf
  | NInf | NaN => NaN
  end.

(** [np.log10] *)
Definition flog10 (x : npfloat) : npfloat := fdiv (flog x) (Fin (ln 10)).

(** [x < y]; every comparison with not-a-number is false *)
Definition flt (x y : npfloat) : bool :=
  match x, y with
  | NaN, _ | _, NaN => false
  | Fin a, Fin b => if Rlt_dec a b then true else false
  | NInf, (Fin _ | PInf) => true
  | Fin _, PInf => true
  | _, _ => false
  end.

(** [x <= y] *)
Definition fle (x y : npfloat) : bool :=
  match x, y with
  | NaN, _ | _, NaN => false
  | Fin a, Fin b => if Rle_dec a b then true else false
  | NInf, _ | _, PInf => true
  | _, _ => false
  end.

Declare Scope fl_scope.
Delimit Scope fl_scope with fl.
Bind Scope fl_scope with npfloat.
Notation "x + y" := (fadd x y) : fl_scope.
Notation "x - y" := (fsub x y) : fl_scope.
Notation "x * y" := (fmul x y) : fl_scope.
Notation "x / y" := (fdiv x y) : fl_scope.
Notation "- x" := (fneg x) : fl_scope.
Notation "x ** n" := (fpow x n) (at level 30, right associativity) : fl_scope.
Notation "x <? y" := (flt x y) : fl_scope.
Notation "x <=? y" := (fle x y) : fl_scope.

(* ===================================================================== *)
(** ** Physical constants *)
(* ===================================================================== *)

Definition eV : R := 1.60217657e-19.
Definition me2 : R := (510.998918e3 * eV) ^ 2.
Definition sigmaThomson : R := 6.6524e-29.
Definition alpha : R := 1 / 137.035999074.

(* ===================================================================== *)
(** ** Cross sections *)
(* ===================================================================== *)

(** Pair production (Breit-Wheeler). *)
Definition sigmaPP (s : npfloat) : npfloat :=
  (let smin := 4 * me2 in
   if s <? smin then Fin 0 else
   let b := fsqrt (1 - smin / s) in
   sigmaThomson * 3 / 16 * (1 - b ** 2)
   * ((3 - b ** 4) * (flog1p b - flog1p (- b)) - 2 * b * (2 - b ** 2)))%fl.

(** Double pair production. *)
Definition sigmaDPP (s : npfloat) : npfloat :=
  (let smin := 16 * me2 in
   if s <? smin then Fin 0 else
   6.45E-34 * (1 - smin / s) ** 6)%fl.

(** Inverse Compton scattering. *)
Definition sigmaICS (s : npfloat) : npfloat :=
  (let smin := Fin me2 in
   if s <? smin then Fin 0 else
   let b := (s - smin) / (s + smin) in
   let A := 2 / b / (1 + b) * (2 + 2 * b - b ** 2 - 2 * b ** 3) in
   let B := (2 - 3 * b ** 2 - b ** 3) / b ** 2 * (flog1p b - flog1p (- b)) in
   sigmaThomson * 3 / 8 * smin / s / b * (A - B))%fl.

(** Triplet pair production. *)
Definition sigmaTPP (s : npfloat) : npfloat :=
  (let beta := 28 / 9 * flog (s / me2) - 218 / 27 in
   if beta <? 0 then Fin 0 else
   sigmaThomson * 3 / 8 / PI * alpha * beta)%fl.

(* ===================================================================== *)
(** ** Errors and results *)
(* ===================================================================== *)

(** The exceptions a run can end with.  [KeyError], [IndexError] and
    [ValueError] are the ones Python and numpy raise in the code below;
    [UnknownProcess], [IntegrationFailure], [EmptyDomain] and
    [NonMonotoneCumulative] are the error kinds of the specification (the
    source raises none of them); [ExternalError] stands for whatever an
    external collaborator raises. *)
Inductive exn : Type :=
| KeyError
| IndexError
| ValueError
| UnknownProcess
| IntegrationFailure
| EmptyDomain
| NonMonotoneCumulative
| ExternalError (msg : string).

Inductive result (A : Type) : Type :=
| Ok (a : A)
| Raise (e : exn).
Arguments Ok {A} a.
Arguments Raise {A} e.

(* ===================================================================== *)
(** ** Cross-section catalogue *)
(* ===================================================================== *)

(** The object passed as [sigma]: one of the four functions of this module, or
    any other function.  Python compares functions by identity, so a function
    that merely computes the same values as a catalogued one is [OtherFn]. *)
Inductive callable : Type :=
| SigmaPP
| SigmaDPP
| SigmaICS
| SigmaTPP
| OtherFn (f : npfloat -> npfloat).

Definition call (sigma : callable) : npfloat -> npfloat :=
  match sigma with
  | SigmaPP => sigmaPP
  | SigmaDPP => sigmaDPP
  | SigmaICS => sigmaICS
  | SigmaTPP => sigmaTPP
  | OtherFn f => f
  end.

(** [sigma in (f, g)] *)
Definition is_fn (sigma f : callable) : bool :=
  match sigma, f with
  | SigmaPP, SigmaPP | SigmaDPP, SigmaDPP
  | SigmaICS, SigmaICS | SigmaTPP, SigmaTPP => true
  | _, _ => false
  end.

(** What [getTabulatedXS] returns: an array, or the Python value [False]. *)
Inductive xs_value : Type :=
| XSArray (a : list npfloat)
| XSFalse.

Definition getTabulatedXS (sigma : callable) (skin : list npfloat) : xs_value :=
  if is_fn sigma SigmaPP || is_fn sigma SigmaDPP then
    XSArray (map (fun s => call sigma s) skin)
  else if is_fn sigma SigmaTPP || is_fn sigma SigmaICS then
    XSArray (map (fun s => call sigma s) (map (fun s => (s + me2)%fl) skin))
  else XSFalse.

(** The dictionary look-up of [getSmin]; a key that is absent raises
    [KeyError]. *)
Definition getSmin (sigma : callable) : result npfloat :=
  match sigma with
  | SigmaPP => Ok (4 * me2)%fl
  | SigmaDPP => Ok (16 * me2)%fl
  | SigmaTPP => Ok (Fin (exp ((218 / 27) / (28 / 9))) * me2 - me2)%fl
  | SigmaICS => Ok (1e-40 * me2)%fl
  | OtherFn _ => Raise KeyError
  end.

(* ===================================================================== *)
(** ** Photon fields *)
(* ===================================================================== *)

Module photonField.
Record Field : Type := {
  name : string;
  info : string;
  getEmin : npfloat;
  getEmax : npfloat;
  getDensity : npfloat -> npfloat
}.
End photonField.
Abbreviation Field := photonField.Field.

Definition getEmin (sigma : callable) (field : Field) : result npfloat :=
  match getSmin sigma with
  | Ok smin => Ok (smin / 4 / photonField.getEmax field)%fl
  | Raise e => Raise e
  end.

(* ===================================================================== *)
(** ** numpy: grids and interpolation *)
(* ===================================================================== *)

(** [10 ** y] *)
Definition fpow10 (y : npfloat) : npfloat :=
  match y with
  | Fin a => Fin (Rpower 10 a)
  | PInf => PInf
  | NInf => Fin 0
  | NaN => NaN
  end.

(** [np.linspace(start, stop, num)]: [num] samples, the last one set to
    [stop]. *)
Definition linspace (start stop : npfloat) (num : Z) : list npfloat :=
  let div := (num - 1)%Z in
  let delta := (stop - start)%fl in
  let step := (delta / Fin (IZR div))%fl in
  map (fun i : Z =>
         if ((1 <? num) && (i =? div))%Z then stop
         else if (0 <? div)%Z then (Fin (IZR i) * step + start)%fl
         else (Fin (IZR i) * delta + start)%fl)
      (seqZ 0 num).

(** [np.logspace(start, stop, num)] *)
Definition logspace (start stop : npfloat) (num : Z) : list npfloat :=
  map fpow10 (linspace start stop num).

(** [a * c] for an array [a] and a scalar [c] *)
Definition scale (a : list npfloat) (c : npfloat) : list npfloat :=
  map (fun x => (x * c)%fl) a.

(** [a[a > m]] *)
Definition above (m : npfloat) (a : list npfloat) : list npfloat :=
  List.filter (fun x => (m <? x)%fl) a.

(** the built-in [max(a, b)] of two arguments *)
Definition py_max (a b : npfloat) : npfloat := if (a <? b)%fl then b else a.

Definition is_nan (x : npfloat) : bool :=
  match x with NaN => true | _ => false end.

(** [x == y] *)
Definition feq (x y : npfloat) : bool :=
  match x, y with
  | Fin a, Fin b => if Req_dec_T a b then true else false
  | PInf, PInf | NInf, NInf => true
  | _, _ => false
  end.
Notation "x =? y" := (feq x y) : fl_scope.

(** The segment search of [np.interp] for [xp[0] <= x <= xp[-1]]: with [j] the
    last index such that [xp[j] <= x], the value is [fp[j]] when [j] is the
    last index or [x == xp[j]], and
    [(fp[j+1] - fp[j]) / (xp[j+1] - xp[j]) * (x - xp[j]) + fp[j]] otherwise.
    (numpy finds [j] by bisection, which for increasing [xp] is the index the
    scan from the left finds.) *)
Fixpoint interp_scan (x : npfloat) (xp fp : list npfloat) : npfloat :=
  match xp, fp with
  | x0 :: ((x1 :: _) as xp'), f0 :: ((f1 :: _) as fp') =>
      if (x <? x1)%fl then
        if (x0 =? x)%fl then f0
        else ((f1 - f0) / (x1 - x0) * (x - x0) + f0)%fl
      else interp_scan x xp' fp'
  | _, f0 :: _ => f0
  | _, [] => NaN
  end.

(** [np.interp(x, xp, fp)] at one point [x], for increasing [xp]: [fp[-1]] to
    the right of the samples, [fp[0]] to their left, the interpolant in
    between; a single sample gives [fp[0]] everywhere. *)
Definition interp1 (x : npfloat) (xp fp : list npfloat) : npfloat :=
  match xp, fp with
  | [_], [f0] => f0
  | _, _ =>
      if is_nan x then x
      else if (List.last xp NaN <? x)%fl then List.last fp NaN
      else if (x <? List.hd NaN xp)%fl then List.hd NaN fp
      else interp_scan x xp fp
  end.

(** [np.interp(x, xp, fp)] for an array [x]; numpy raises [ValueError] when
    [xp] is empty or [fp] has another length. *)
Definition np_interp (x xp fp : list npfloat) : result (list npfloat) :=
  match xp with
  | [] => Raise ValueError
  | _ => if (length fp =? length xp)%nat then Ok (map (fun v => interp1 v xp fp) x)
         else Raise ValueError
  end.

(* ===================================================================== *)
(** ** The world: persisted tables and external collaborators *)
(* ===================================================================== *)

(** A text table as [np.savetxt] writes it: the header and the rows of
    numbers.  The decimal formatting of the numbers ([fmt]) is not modelled. *)
Record table : Type := {
  header : string;
  rows : list (list npfloat)
}.

(** The file system: the directories, the files by path, and a counter of the
    [quad] evaluations made so far (ghost state, to speak about
    recomputation). *)
Record world : Type := {
  dirs : gset string;
  files : gmap string table;
  quad_calls : nat
}.

(** What [scipy.integrate.quad(..., full_output=1)] returns: the estimate, the
    error estimate, and whether the quadrature converged (with [full_output]
    a failure to converge is reported in the returned tuple, not raised). *)
Record quad_output : Type := {
  integral : npfloat;
  abserr : npfloat;
  converged : bool
}.

(** A rate array of [interactionRate.calc_rate_s]: one rate per energy, or
    with [cdf=True] one row per energy. *)
Inductive ndarray : Type :=
| Arr1 (v : list npfloat)
| Arr2 (m : list (list npfloat)).

(** The collaborators that are not part of this module: [scipy]'s [quad], the
    rate integration of [interactionRate], and [gitHelp] ([None] when
    [get_git_revision_hash] raises).  [calc_rate_s] may read the persisted
    tables. *)
Class Extern : Type := {
  quad : (npfloat -> npfloat) -> npfloat -> npfloat -> quad_output;
  calc_rate_s : gmap string table -> list npfloat -> xs_value ->
                list npfloat -> Field -> bool -> result ndarray;
  get_git_revision_hash : option string
}.

(** an exception that the rate integration raised *)
Definition raised_by_calc_rate_s `{Extern} (field : Field) (e : exn) : Prop :=
  exists fs skin xs E cdf, calc_rate_s fs skin xs E field cdf = Raise e.

(** Computations on the world that may raise; what was written before an
    exception stays written. *)
Definition M (A : Type) : Type := world -> world * result A.

Definition ret {A} (a : A) : M A := fun w => (w, Ok a).
Definition raise {A} (e : exn) : M A := fun w => (w, Raise e).
Definition bind {A B} (m : M A) (k : A -> M B) : M B :=
  fun w => match m w with
           | (w', Ok a) => k a w'
           | (w', Raise e) => (w', Raise e)
           end.
Definition lift {A} (r : result A) : M A := fun w => (w, r).

Notation "x <- m ;; k" := (bind m (fun x => k))
  (at level 100, m at next level, right associativity).
Notation "m ;;; k" := (bind m (fun _ => k))
  (at level 100, right associativity).

Definition isdir (p : string) : M bool :=
  fun w => (w, Ok (bool_decide (p ∈ dirs w))).
Definition isfile (p : string) : M bool :=
  fun w => (w, Ok (bool_decide (is_Some (files w !! p)))).
Definition makedirs (p : string) : M unit :=
  fun w => ({| dirs := {[p]} ∪ dirs w; files := files w; quad_calls := quad_calls w |},
            Ok tt).
(** the world once directory [p] exists *)
Definition with_dir (p : string) (w : world) : world :=
  if bool_decide (p ∈ dirs w) then w
  else {| dirs := {[p]} ∪ dirs w; files := files w; quad_calls := quad_calls w |}.

Definition savetxt (p : string) (data : list (list npfloat)) (hdr : string) : M unit :=
  fun w => ({| dirs := dirs w;
               files := <[p := {| header := hdr; rows := data |}]> (files w);
               quad_calls := quad_calls w |}, Ok tt).

(** [os.path.exists] *)
Definition path_exists (p : string) : M bool :=
  fun w => (w, Ok (bool_decide (p ∈ dirs w) || bool_decide (is_Some (files w !! p)))).

(** [np.c_[col, a]]: the column [col] in front of the array [a]; the numbers of
    rows must agree. *)
Definition np_c_ (col : list npfloat) (a : ndarray) : result (list (list npfloat)) :=
  match a with
  | Arr1 v => if (length v =? length col)%nat
              then Ok (zip_with (fun c x => [c; x]) col v)
              else Raise ValueError
  | Arr2 m => if (length m =? length col)%nat
              then Ok (zip_with (fun c r => c :: r) col m)
              else Raise ValueError
  end.

Fixpoint mapM {A B} (f : A -> M B) (l : list A) : M (list B) :=
  match l with
  | [] => ret []
  | a :: l' => b <- f a ;; bs <- mapM f l' ;; ret (b :: bs)
  end.

Definition nl : string := String "010"%char EmptyString.
Definition tab : string := String "009"%char EmptyString.

(* ===================================================================== *)
(** ** The density-integral cache *)
(* ===================================================================== *)

Section Pipeline.
Context `{Extern}.

(** [quad(f, a=a, b=b, full_output=1)[0]] *)
Definition quad0 (f : npfloat -> npfloat) (a b : npfloat) : M npfloat :=
  fun w => ({| dirs := dirs w; files := files w; quad_calls := S (quad_calls w) |},
            Ok (integral (quad f a b))).

Definition density_file (field : Field) : string :=
  "data/fieldDensity/" +:+ photonField.name field +:+ ".txt".

(** the header of the density table; the version line is left out when
    [get_git_revision_hash] raises *)
Definition density_header : string :=
  let header := "# calculate integral n(e)/e^2 de from eMin to eMax, where eMax is the maximal photon energy of the background " +:+ nl in
  match get_git_revision_hash with
  | Some git_hash =>
      header +:+ "Produced with crpropa-data version: " +:+ git_hash +:+ nl
             +:+ "# eMin [eV]" +:+ tab +:+ "integral" +:+ nl
  | None => header +:+ "# eMin [eV]" +:+ tab +:+ "integral" +:+ nl
  end.

Definition calculateDensityIntegral (field : Field) : M unit :=
  let Emax := photonField.getEmax field in
  let Emin := (1e4 / 4 / 1e23 * eV)%fl in
  let alpha := logspace (flog10 Emin) (flog10 Emax) 10000 in
  let folder := "data/fieldDensity/" in
  d <- isdir folder ;;
  (if negb d then makedirs folder else ret tt) ;;;
  let file := folder +:+ photonField.name field +:+ ".txt" in
  f <- isfile file ;;
  if f then ret tt else
  let integrand := fun E => (photonField.getDensity field E / E ** 2)%fl in
  I_gamma <- mapM (fun a => quad0 integrand a Emax) alpha ;;
  let header := density_header in
  data <- lift (np_c_ alpha (Arr1 I_gamma)) ;;
  savetxt file data header.

(* =================================================================== *)
(** ** The driver *)
(* =================================================================== *)

(** the rows of a rate array, as the comprehension [for r in rate] sees
    them; a row that is a number cannot be interpolated *)
Definition rows_of (rate : ndarray) : result (list (list npfloat)) :=
  match rate with
  | Arr2 m => Ok m
  | Arr1 [] => Ok []
  | Arr1 (_ :: _) => Raise ValueError
  end.

Definition rate_header (kind name : string) (field : Field) (columns : string) : string :=
  let title := name +:+ kind +:+ nl +:+ "photon field: " +:+ photonField.info field +:+ nl in
  match get_git_revision_hash with
  | Some git_hash =>
      title +:+ "Produced with crpropa-data version: " +:+ git_hash +:+ nl +:+ columns
  | None => title +:+ columns
  end.

Definition process (sigma : callable) (field : Field) (name : string) : M unit :=
  let folder := "data/" +:+ name in
  e <- path_exists folder ;;
  (if negb e then makedirs folder else ret tt) ;;;
  Emin <- lift (getEmin sigma field) ;;
  let E := scale (logspace 9 23 281) eV in
  let E := above Emin E in
  f <- isfile ("data/fieldDensity/" +:+ photonField.name field +:+ ".txt") ;;
  (if negb f then calculateDensityIntegral field else ret tt) ;;;
  let s_kin := scale (logspace 4 23 (2 ^ 18 + 1)) (eV ** 2)%fl in
  let xs := getTabulatedXS sigma s_kin in
  rate <- (fun w => (w, calc_rate_s (files w) s_kin xs E field false)) ;;
  let fname := folder +:+ "/rate_" +:+ photonField.name field +:+ ".txt" in
  data <- lift (np_c_ (map (fun e => flog10 (e / eV)%fl) E) rate) ;;
  let header := rate_header " interaction rates" name field
                  "log10(E/eV), 1/lambda [1/Mpc]" in
  savetxt fname data header ;;;
  skin1 <- lift (getSmin sigma) ;;
  E0 <- lift (match E with e0 :: _ => Ok e0 | [] => Raise IndexError end) ;;
  let skin2 := (4 * photonField.getEmin field * E0)%fl in
  let skin_min := py_max skin1 skin2 in
  let skin := scale (logspace 4 23 (380000 + 1)) (eV ** 2)%fl in
  let skin := above skin_min skin in
  let xs := getTabulatedXS sigma skin in
  rate <- (fun w => (w, calc_rate_s (files w) skin xs E field true)) ;;
  let skin_save := scale (logspace 4 23 (190 + 1)) (eV ** 2)%fl in
  let skin_save := above skin_min skin_save in
  rate_rows <- lift (rows_of rate) ;;
  rate_save <- mapM (fun r => lift (np_interp skin_save skin r)) rate_rows ;;
  data <- lift (np_c_ (map (fun e => flog10 (e / eV)%fl) E) (Arr2 rate_save)) ;;
  let row0 := Fin 0 :: map (fun s => flog10 (s / eV ** 2)%fl) skin_save in
  let data := row0 :: data in
  let fname := folder +:+ "/cdf_" +:+ photonField.name field +:+ ".txt" in
  let header := rate_header " cumulative differential rate" name field
                  "log10(E/eV), d(1/lambda)/ds_kin [1/Mpc/eV^2] for log10(s_kin/eV^2) as given in first row" in
  savetxt fname data header.

End Pipeline.

(** The paths of the two tables that [process] writes. *)
Definition rate_file (name : string) (field : Field) : string :=
  ("data/" +:+ name) +:+ "/rate_" +:+ photonField.name field +:+ ".txt".

Definition cdf_file (name : string) (field : Field) : string :=
  ("data/" +:+ name) +:+ "/cdf_" +:+ photonField.name field +:+ ".txt".

(** The lower bounds tabulated for a field, and the integrand. *)
Definition density_bounds (field : Field) : list npfloat :=
  logspace (flog10 (1e4 / 4 / 1e23 * eV)%fl) (flog10 (photonField.getEmax field)) 10000.

Definition density_integrand (field : Field) : npfloat -> npfloat :=
  fun E => (photonField.getDensity field E / E ** 2)%fl.

(* ===================================================================== *)
(** ** The pair-production formula of the specification *)
(* ===================================================================== *)

(** The pair-production cross section written with the direct logarithm
    [log((1 + b) / (1 - b))], the reference form that the specification names
    next to the stable form of [sigmaPP]. *)
Definition sigmaPP_direct (s : npfloat) : npfloat :=
  (let smin := 4 * me2 in
   if s <? smin then Fin 0 else
   let b := fsqrt (1 - smin / s) in
   sigmaThomson * 3 / 16 * (1 - b ** 2)
   * ((3 - b ** 4) * flog ((1 + b) / (1 - b)) - 2 * b * (2 - b ** 2)))%fl.

(** The point where [28/9 * log(s / me2) - 218/27] changes sign. *)
Definition sTPP : R := me2 * exp ((218 / 27) / (28 / 9)).

(* ===================================================================== *)
(** ** The cross sections as real functions *)
(* ===================================================================== *)

(** The number [sigmaPP] computes for a finite [s] at or above its
    threshold. *)
Definition ppR (s : R) : R :=
  let b := sqrt (1 - 4 * me2 / s) in
  sigmaThomson * 3 / 16 * (1 - b ^ 2)
  * ((3 - b ^ 4) * (ln (1 + b) - ln (1 + - b)) - 2 * b * (2 - b ^ 2)).

(** The number [sigmaICS] computes for a finite [s] above its threshold. *)
Definition icsR (s : R) : R :=
  let b := (s - me2) / (s + me2) in
  let A := 2 / b / (1 + b) * (2 + 2 * b - b ^ 2 - 2 * b ^ 3) in
  let B := (2 - 3 * b ^ 2 - b ^ 3) / b ^ 2 * (ln (1 + b) - ln (1 + - b)) in
  sigmaThomson * 3 / 8 * me2 / s / b * (A - B).


(* ===================================================================== *)
(** ** Grids and interpolation on finite numbers *)
(* ===================================================================== *)

Definition Rltb (a b : R) : bool := if Rlt_dec a b then true else false.

(** The numbers of [np.logspace(a, b, n) * c] for finite [a], [b], [c]. *)
Definition grid (a b : R) (n : Z) (c : R) : list R :=
  map (fun i : Z => Rpower 10 (IZR i * ((b - a) / IZR (n - 1)) + a) * c) (seqZ 0 n).

(** [interp_scan] on finite numbers. *)
Fixpoint scanR (x : R) (xp fp : list R) : R :=
  match xp, fp with
  | x0 :: ((x1 :: _) as xp'), f0 :: ((f1 :: _) as fp') =>
      if Rltb x x1 then
        if Req_dec_T x0 x then f0
        else (f1 - f0) / (x1 - x0) * (x - x0) + f0
      else scanR x xp' fp'
  | _, f0 :: _ => f0
  | _, [] => 0
  end.

(** [interp1] on finite numbers. *)
Definition interpR (x : R) (xp fp : list R) : R :=
  match xp, fp with
  | [_], [f0] => f0
  | _, _ =>
      if Rltb (List.last xp 0) x then List.last fp 0
      else if Rltb x (List.hd 0 xp) then List.hd 0 fp
      else scanR x xp fp
  end.

(* ===================================================================== *)
(** ** Sample collaborators and inputs *)
(* ===================================================================== *)

(** A photon field with a flat spectrum between two photon energies. *)
Definition flat_field : Field :=
  {| photonField.name := "flat";
     photonField.info := "flat spectrum";
     photonField.getEmin := Fin 1e-25;
     photonField.getEmax := Fin 1e-21;
     photonField.getDensity := fun _ => Fin 1 |}.

(** A field whose photon energies are far too small for any tabulated
    particle energy to reach a threshold. *)
Definition faint_field : Field :=
  {| photonField.name := "faint";
     photonField.info := "photons too soft";
     photonField.getEmin := Fin 1e-33;
     photonField.getEmax := Fin 1e-31;
     photonField.getDensity := fun _ => Fin 1 |}.

(** Collaborators: a quadrature that never converges and returns the estimate
    0 all the same, a rate integration that returns zero rates in the shape
    [process] expects, and no revision available. *)
Definition sample_extern : Extern :=
  {| quad := fun _ _ _ => {| integral := Fin 0; abserr := PInf; converged := false |};
     calc_rate_s := fun _ skin _ E _ cdf =>
       Ok (if cdf then Arr2 (map (fun _ => map (fun _ => Fin 0) skin) E)
           else Arr1 (map (fun _ => Fin 0) E));
     get_git_revision_hash := None |}.

Definition empty_world : world := {| dirs := ∅; files := ∅; quad_calls := 0 |}.

(** The fine and the coarse [s_kin] grid of [process] above [skin_min], as
    finite numbers. *)
Definition fine_skin (skin_min : npfloat) : list R :=
  List.filter (fun x => (skin_min <? Fin x)%fl) (grid 4 23 (380000 + 1) (eV ^ 2)).

Definition coarse_skin (skin_min : npfloat) : list R :=
  List.filter (fun x => (skin_min <? Fin x)%fl) (grid 4 23 (190 + 1) (eV ^ 2)).

(** A flat row over the fine [s_kin] grid above 0. *)
Definition flat_row : list R := map (fun _ => 1) (fine_skin (Fin 0)).
(* ===================================================================== *)
(** ** One entry of a tabulated cross section *)
(* ===================================================================== *)

(** The entry that [getTabulatedXS] computes for one finite [s_kin]: the
    cross section at [s_kin] for the photon interactions, at [s_kin + me2] for
    the electron interactions. *)
Definition xs_entry (sigma : callable) (s : R) : npfloat :=
  match sigma with
  | SigmaPP | SigmaDPP => call sigma (Fin s)
  | SigmaTPP | SigmaICS => call sigma (Fin s + Fin me2)%fl
  | OtherFn _ => NaN
  end.

(* ===================================================================== *)
(** ** Worlds after a step of [process] *)
(* ===================================================================== *)

(** the world once table [t] is written at path [p] *)
Definition write_table (p : string) (t : table) (w : world) : world :=
  {| dirs := dirs w; files := <[p := t]> (files w); quad_calls := quad_calls w |}.

(** How the cache step of [process] for [field] relates the world before it
    to the world after it: either the density table was there and nothing
    changed, or it was missing and has been written, with one [quad]
    evaluation for each lower bound. *)
Definition cache_rel (field : Field) (w1 w2 : world) : Prop :=
  dirs w1 ⊆ dirs w2 /\
  ((is_Some (files w1 !! ("data/fieldDensity/" +:+ photonField.name field +:+ ".txt")) /\
    files w2 = files w1 /\ quad_calls w2 = quad_calls w1) \/
   (files w1 !! ("data/fieldDensity/" +:+ photonField.name field +:+ ".txt") = None /\
    (exists t, files w2
               = <["data/fieldDensity/" +:+ photonField.name field +:+ ".txt" := t]> (files w1)) /\
    quad_calls w2 = (length (density_bounds field) + quad_calls w1)%nat)).

(** The classes of exception that a run of [process] can end with. *)
Definition process_exn `{Extern} (field : Field) (e : exn) : Prop :=
  e = IndexError \/ e = ValueError \/ raised_by_calc_rate_s field e.

(** every table of a run for [field] into the folder of [name] is there *)
Definition tables_written (name : string) (field : Field) (w : world) : Prop :=
  is_Some (files w !! density_file field) /\
  is_Some (files w !! rate_file name field) /\
  is_Some (files w !! cdf_file name field).

(* ===================================================================== *)
(** ** The script *)
(* ===================================================================== *)

Section Script.
Context `{Extern}.

(** [for a in l: body(a)]; an exception ends the loop *)
Fixpoint for_each {A} (l : list A) (body : A -> M unit) : M unit :=
  match l with
  | [] => ret tt
  | a :: l' => body a ;;; for_each l' body
  end.

(** The loop at the end of the module, over the list [fields] of the photon
    fields that are switched on.  [print(field.name)] writes to the standard
    output, which is not part of the world. *)
Definition main (fields : list Field) : M unit :=
  for_each fields (fun field => process SigmaICS field "EMInverseComptonScattering").

End Script.

(* ===================================================================== *)
(** * Properties *)
(* ===================================================================== *)

(** ** Arithmetic of finite floats *)

Lemma is_zero_true x : x = 0 -> is_zero x = true.
Proof. intros ->. unfold is_zero. destruct (Req_dec_T 0 0); [reflexivity | lra]. Qed.

Lemma is_zero_false x : x <> 0 -> is_zero x = false.
Proof. intros Hx. unfold is_zero. destruct (Req_dec_T x 0); [contradiction | reflexivity]. Qed.

Lemma is_pos_true x : 0 < x -> is_pos x = true.
Proof. intros Hx. unfold is_pos. destruct (Rlt_dec 0 x); [reflexivity | contradiction]. Qed.

Lemma is_pos_false x : x <= 0 -> is_pos x = false.
Proof. intros Hx. unfold is_pos. destruct (Rlt_dec 0 x); [lra | reflexivity]. Qed.

Lemma is_neg_true x : x < 0 -> is_neg x = true.
Proof. intros Hx. unfold is_neg. destruct (Rlt_dec x 0); [reflexivity | contradiction]. Qed.

Lemma is_neg_false x : 0 <= x -> is_neg x = false.
Proof. intros Hx. unfold is_neg. destruct (Rlt_dec x 0); [lra | reflexivity]. Qed.

Lemma fdiv_fin a b : b <> 0 -> (Fin a / Fin b)%fl = Fin (a / b).
Proof. intros Hb. cbn. now rewrite is_zero_false. Qed.

Lemma flt_fin_true a b : a < b -> (Fin a <? Fin b)%fl = true.
Proof. intros Hab. cbn. destruct (Rlt_dec a b); [reflexivity | contradiction]. Qed.

Lemma flt_fin_false a b : b <= a -> (Fin a <? Fin b)%fl = false.
Proof. intros Hab. cbn. destruct (Rlt_dec a b); [lra | reflexivity]. Qed.

Lemma flt_fin a b : (Fin a <? Fin b)%fl = true <-> a < b.
Proof.
  cbn. destruct (Rlt_dec a b); split; intros; try assumption; try reflexivity.
  - discriminate.
  - contradiction.
Qed.

Lemma fsqrt_fin a : 0 <= a -> fsqrt (Fin a) = Fin (sqrt a).
Proof. intros Ha. cbn. now rewrite is_neg_false. Qed.

Lemma flog_fin a : 0 < a -> flog (Fin a) = Fin (ln a).
Proof. intros Ha. cbn. now rewrite is_pos_true. Qed.

Lemma flog1p_fin a : -1 < a -> flog1p (Fin a) = Fin (ln (1 + a)).
Proof. intros Ha. cbn. rewrite is_pos_true; [reflexivity | lra]. Qed.

(** ** Constants *)

Lemma eV_pos : 0 < eV.
Proof. unfold eV. lra. Qed.

Lemma me2_pos : 0 < me2.
Proof. unfold me2. pose proof eV_pos. nra. Qed.

Lemma sigmaThomson_pos : 0 < sigmaThomson.
Proof. unfold sigmaThomson. lra. Qed.

Lemma alpha_pos : 0 < alpha.
Proof. unfold alpha. lra. Qed.

(** ** Two bounds on [log1p(b) - log1p(-b)] *)

Lemma cosh_ge_1 y : 1 <= cosh y.
Proof.
  unfold cosh. pose proof (exp_pos y) as Hp. rewrite exp_Ropp.
  assert (Hsq : 0 <= (exp y - 1) * (exp y - 1) * / exp y).
  { apply Rmult_le_pos; [apply (Rle_0_sqr (exp y - 1)) |].
    left. now apply Rinv_0_lt_compat. }
  replace (exp y + / exp y) with (2 + (exp y - 1) * (exp y - 1) * / exp y)
    by (field; lra).
  lra.
Qed.

Lemma sinh_ge_id y : 0 <= y -> y <= sinh y.
Proof.
  intros Hy.
  pose (f := (sinh - id)%F).
  assert (pr : derivable f) by (unfold f; reg).
  assert (Hinc : increasing f).
  { apply (nonneg_derivative_1 f pr). intros x.
    assert (Hd : derivable_pt_lim f x (cosh x - 1)).
    { unfold f. apply derivable_pt_lim_minus.
      - apply derivable_pt_lim_sinh.
      - apply derivable_pt_lim_id. }
    rewrite (derive_pt_eq_0 f x _ (pr x) Hd).
    pose proof (cosh_ge_1 x). lra. }
  specialize (Hinc 0 y Hy). unfold f, minus_fct, id in Hinc.
  rewrite sinh_0 in Hinc. lra.
Qed.

Lemma logdiff_lower b :
  0 <= b < 1 -> b * (2 + b) / (1 + b) <= ln (1 + b) - ln (1 - b).
Proof.
  intros [H0 H1].
  assert (Ha : b / (1 + b) <= ln (1 + b)).
  { pose proof (exp_ineq1_le (- ln (1 + b))) as Hle.
    rewrite exp_Ropp, exp_ln in Hle by lra.
    replace (b / (1 + b)) with (1 - / (1 + b)) by (field; lra). lra. }
  assert (Hb : b <= - ln (1 - b)).
  { pose proof (exp_ineq1_le (ln (1 - b))) as Hle.
    rewrite exp_ln in Hle by lra. lra. }
  replace (b * (2 + b) / (1 + b)) with (b / (1 + b) + b) by (field; lra).
  lra.
Qed.

Lemma logdiff_nonneg b : 0 <= b < 1 -> 0 <= ln (1 + b) - ln (1 - b).
Proof.
  intros Hb. pose proof (logdiff_lower b Hb) as Hl.
  assert (0 <= b * (2 + b) / (1 + b)).
  { apply Rmult_le_pos; [nra |]. left. apply Rinv_0_lt_compat. lra. }
  lra.
Qed.

Lemma logdiff_upper b :
  0 <= b < 1 -> ln (1 + b) - ln (1 - b) <= 2 * b / (1 - b * b).
Proof.
  intros Hb. pose proof (logdiff_nonneg b Hb) as HL.
  set (L := ln (1 + b) - ln (1 - b)) in *.
  pose proof (sinh_ge_id L HL) as Hs.
  assert (He : exp L = (1 + b) / (1 - b)).
  { unfold L, Rminus. rewrite exp_plus, exp_Ropp, !exp_ln by lra. reflexivity. }
  assert (Hsh : sinh L = 2 * b / (1 - b * b)).
  { unfold sinh. rewrite exp_Ropp, He. field. repeat split; nra. }
  lra.
Qed.

(** ** The cross sections on finite arguments *)

Lemma fadd_fin a b : (Fin a + Fin b)%fl = Fin (a + b).
Proof. reflexivity. Qed.
Lemma fsub_fin a b : (Fin a - Fin b)%fl = Fin (a - b).
Proof. reflexivity. Qed.
Lemma fmul_fin a b : (Fin a * Fin b)%fl = Fin (a * b).
Proof. reflexivity. Qed.
Lemma fneg_fin a : (- Fin a)%fl = Fin (- a).
Proof. reflexivity. Qed.
Lemma fpow_fin a n : n <> O -> (Fin a ** n)%fl = Fin (a ^ n).
Proof. destruct n; [congruence | reflexivity]. Qed.

Ltac fl_norm tac :=
  repeat first
    [ rewrite fadd_fin | rewrite fsub_fin | rewrite fmul_fin | rewrite fneg_fin
    | rewrite fpow_fin by discriminate
    | rewrite fdiv_fin by tac
    | rewrite fsqrt_fin by tac
    | rewrite flog_fin by tac
    | rewrite flog1p_fin by tac
    | rewrite flt_fin_true by tac
    | rewrite flt_fin_false by tac ].

Lemma sigmaPP_below s : s < 4 * me2 -> sigmaPP (Fin s) = Fin 0.
Proof.
  intros Hs. unfold sigmaPP. fl_norm lra. reflexivity.
Qed.

Lemma pp_beta_range s : 4 * me2 <= s -> 0 <= 1 - 4 * me2 / s < 1.
Proof.
  intros Hs. pose proof me2_pos as Hm.
  assert (Hs0 : 0 < s) by lra.
  assert (Hq : 0 < 4 * me2 / s <= 1).
  { split.
    - apply Rdiv_lt_0_compat; lra.
    - apply (Rmult_le_reg_r s); [lra |]. 
      replace (4 * me2 / s * s) with (4 * me2) by (field; lra). lra. }
  lra.
Qed.

Lemma sqrt_unit x : 0 <= x < 1 -> 0 <= sqrt x < 1.
Proof.
  intros [H0 H1]. split; [apply sqrt_pos |].
  rewrite <- sqrt_1. apply sqrt_lt_1_alt. lra.
Qed.

Lemma sigmaPP_fin s : 4 * me2 <= s -> sigmaPP (Fin s) = Fin (ppR s).
Proof.
  intros Hs. pose proof me2_pos as Hm.
  pose proof (pp_beta_range s Hs) as Hr.
  pose proof (sqrt_unit _ Hr) as Hb.
  unfold sigmaPP, ppR. cbv zeta. fl_norm lra. reflexivity.
Qed.

Lemma ppR_nonneg s : 4 * me2 <= s -> 0 <= ppR s.
Proof.
  intros Hs. pose proof (sqrt_unit _ (pp_beta_range s Hs)) as Hb.
  unfold ppR. cbv zeta. set (b := sqrt (1 - 4 * me2 / s)) in *.
  pose proof (logdiff_lower b Hb) as Hl.
  replace (1 + - b) with (1 - b) by lra.
  set (L := ln (1 + b) - ln (1 - b)) in *.
  pose proof sigmaThomson_pos as Ht.
  assert (Hpoly : 2 * b * (2 - b ^ 2) <= (3 - b ^ 4) * (b * (2 + b) / (1 + b))).
  { apply (Rmult_le_reg_r (1 + b)); [lra |].
    replace ((3 - b ^ 4) * (b * (2 + b) / (1 + b)) * (1 + b))
      with ((3 - b ^ 4) * (b * (2 + b))) by (field; lra).
    assert (0 <= b * (2 - b + 2 * b ^ 2 * (1 - b ^ 2) + b ^ 3 * (2 - b ^ 2))).
    { apply Rmult_le_pos; [lra |].
      assert (0 <= b ^ 2 * (1 - b ^ 2)) by (apply Rmult_le_pos; nra).
      assert (0 <= b ^ 3 * (2 - b ^ 2)).
      { apply Rmult_le_pos; [apply pow_le; lra | nra]. }
      lra. }
    lra. }
  assert (H34 : 0 <= 3 - b ^ 4).
  { assert (b ^ 4 <= 1).
    { assert (Hbb : 0 <= b * b <= 1) by nra.
      replace (b ^ 4) with ((b * b) * (b * b)) by ring. nra. }
    lra. }
  assert (Hmain : 0 <= (3 - b ^ 4) * L - 2 * b * (2 - b ^ 2)).
  { assert ((3 - b ^ 4) * (b * (2 + b) / (1 + b)) <= (3 - b ^ 4) * L)
      by (apply Rmult_le_compat_l; lra).
    lra. }
  apply Rmult_le_pos; [| exact Hmain].
  apply Rmult_le_pos; [lra | nra].
Qed.

Lemma sigmaDPP_below s : s < 16 * me2 -> sigmaDPP (Fin s) = Fin 0.
Proof. intros Hs. unfold sigmaDPP. fl_norm lra. reflexivity. Qed.

Lemma sigmaDPP_fin s :
  16 * me2 <= s -> sigmaDPP (Fin s) = Fin (6.45E-34 * (1 - 16 * me2 / s) ^ 6).
Proof.
  intros Hs. pose proof me2_pos as Hm.
  unfold sigmaDPP. cbv zeta. fl_norm lra. reflexivity.
Qed.

Lemma dpp_nonneg s : 16 * me2 <= s -> 0 <= 6.45E-34 * (1 - 16 * me2 / s) ^ 6.
Proof.
  intros Hs. apply Rmult_le_pos; [lra |].
  replace ((1 - 16 * me2 / s) ^ 6) with (((1 - 16 * me2 / s) ^ 3) ^ 2) by ring.
  apply pow2_ge_0.
Qed.

Lemma sigmaICS_below s : s < me2 -> sigmaICS (Fin s) = Fin 0.
Proof. intros Hs. unfold sigmaICS. fl_norm lra. reflexivity. Qed.

Lemma ics_beta_range s : me2 < s -> 0 < (s - me2) / (s + me2) < 1.
Proof.
  intros Hs. pose proof me2_pos as Hm. split.
  - apply Rdiv_lt_0_compat; lra.
  - apply (Rmult_lt_reg_r (s + me2)); [lra |].
    replace ((s - me2) / (s + me2) * (s + me2)) with (s - me2) by (field; lra).
    lra.
Qed.

Lemma sigmaICS_fin s : me2 < s -> sigmaICS (Fin s) = Fin (icsR s).
Proof.
  intros Hs. pose proof me2_pos as Hm.
  pose proof (ics_beta_range s Hs) as Hb.
  assert (Hb2 : ((s - me2) / (s + me2)) ^ 2 <> 0).
  { apply pow_nonzero. lra. }
  unfold sigmaICS, icsR. cbv zeta. fl_norm ltac:(first [lra | assumption]). reflexivity.
Qed.

Lemma icsR_nonneg s : me2 < s -> 0 <= icsR s.
Proof.
  intros Hs. pose proof me2_pos as Hm. pose proof sigmaThomson_pos as Ht.
  pose proof (ics_beta_range s Hs) as Hb.
  unfold icsR. cbv zeta. set (b := (s - me2) / (s + me2)) in *.
  replace (1 + - b) with (1 - b) by lra.
  assert (HbL : 0 <= b < 1) by lra.
  pose proof (logdiff_upper b HbL) as Hu.
  pose proof (logdiff_nonneg b HbL) as Hn.
  set (L := ln (1 + b) - ln (1 - b)) in *.
  set (A := 2 / b / (1 + b) * (2 + 2 * b - b ^ 2 - 2 * b ^ 3)).
  set (p := 2 - 3 * b ^ 2 - b ^ 3).
  assert (Hb2 : 0 < b ^ 2) by (apply pow_lt; lra).
  assert (HA : A = p / b ^ 2 * (2 * b / (1 - b * b)) + 4 * b ^ 3 / (1 - b * b)).
  { unfold A, p. field. repeat split; nra. }
  assert (Htail : 0 <= 4 * b ^ 3 / (1 - b * b)).
  { apply Rmult_le_pos.
    - apply Rmult_le_pos; [lra | apply pow_le; lra].
    - left. apply Rinv_0_lt_compat. nra. }
  assert (HAB : 0 <= A - p / b ^ 2 * L).
  { destruct (Rle_lt_dec p 0) as [Hp | Hp].
    - assert (0 <= (- p / b ^ 2) * L).
      { apply Rmult_le_pos; [| exact Hn].
        apply Rmult_le_pos; [lra |]. left. now apply Rinv_0_lt_compat. }
      assert (0 <= (- p / b ^ 2) * (2 * b / (1 - b * b))).
      { apply Rmult_le_pos; [| lra].
        apply Rmult_le_pos; [lra |]. left. now apply Rinv_0_lt_compat. }
      replace (p / b ^ 2 * L) with (- (- p / b ^ 2 * L)) by (field; lra).
      replace (p / b ^ 2 * (2 * b / (1 - b * b)))
        with (- (- p / b ^ 2 * (2 * b / (1 - b * b)))) in HA by (field; split; nra).
      assert (0 <= A); [| lra].
      unfold A. apply Rmult_le_pos.
      + apply Rmult_le_pos; [apply Rmult_le_pos; [lra |] |];
          left; apply Rinv_0_lt_compat; lra.
      + assert (b ^ 2 <= b) by nra. assert (b ^ 3 <= b) by nra. lra.
    - assert (p / b ^ 2 * L <= p / b ^ 2 * (2 * b / (1 - b * b))).
      { apply Rmult_le_compat_l; [| exact Hu].
        apply Rmult_le_pos; [lra |]. left. now apply Rinv_0_lt_compat. }
      lra. }
  assert (Hc : 0 < sigmaThomson * 3 / 8 * me2) by nra.
  assert (His : 0 < / s) by (apply Rinv_0_lt_compat; lra).
  assert (Hib : 0 < / b) by (apply Rinv_0_lt_compat; lra).
  apply Rmult_le_pos; [| exact HAB].
  left. unfold Rdiv.
  apply Rmult_lt_0_compat; [apply Rmult_lt_0_compat; [exact Hc | exact His] | exact Hib].
Qed.

Lemma flog_zero a : a = 0 -> flog (Fin a) = NInf.
Proof.
  intros ->. cbn. rewrite is_pos_false by lra. now rewrite is_zero_true.
Qed.

Lemma flog_neg a : a < 0 -> flog (Fin a) = NaN.
Proof.
  intros Ha. cbn. rewrite is_pos_false by lra. rewrite is_zero_false by lra.
  reflexivity.
Qed.

Lemma fdiv_zero a b : b = 0 -> (Fin a / Fin b)%fl = inf_of_sign a.
Proof. intros ->. cbn. now rewrite is_zero_true. Qed.

Lemma inf_of_sign_pos a : 0 < a -> inf_of_sign a = PInf.
Proof.
  intros Ha. unfold inf_of_sign. rewrite is_zero_false by lra.
  now rewrite is_pos_true.
Qed.

Lemma inf_of_sign_neg a : a < 0 -> inf_of_sign a = NInf.
Proof.
  intros Ha. unfold inf_of_sign. rewrite is_zero_false by lra.
  now rewrite is_pos_false by lra.
Qed.

Lemma inf_of_sign_zero a : a = 0 -> inf_of_sign a = NaN.
Proof. intros ->. unfold inf_of_sign. now rewrite is_zero_true. Qed.

Lemma fsub_nan_r x : (x - NaN)%fl = NaN.
Proof. destruct x; reflexivity. Qed.

Lemma fmul_nan_r x : (x * NaN)%fl = NaN.
Proof. destruct x; reflexivity. Qed.

(** *** Triplet pair production *)

Lemma sTPP_pos : 0 < sTPP.
Proof.
  unfold sTPP. apply Rmult_lt_0_compat; [apply me2_pos | apply exp_pos].
Qed.

Lemma tpp_beta_sign s :
  0 < s ->
  (s < sTPP -> 28 / 9 * ln (s / me2) - 218 / 27 < 0) /\
  (sTPP <= s -> 0 <= 28 / 9 * ln (s / me2) - 218 / 27).
Proof.
  intros Hs. pose proof me2_pos as Hm.
  assert (Hq : 0 < s / me2) by (apply Rdiv_lt_0_compat; lra).
  set (c := 218 / 27 / (28 / 9)).
  assert (Hc : 218 / 27 = 28 / 9 * c) by (unfold c; field).
  rewrite Hc. split; intros Hlt.
  - assert (Hl : ln (s / me2) < c).
    { rewrite <- (ln_exp c). apply ln_increasing; [exact Hq |].
      apply (Rmult_lt_reg_r me2); [exact Hm |].
      replace (s / me2 * me2) with s by (field; lra).
      unfold sTPP in Hlt. fold c in Hlt. lra. }
    lra.
  - assert (Hl : c <= ln (s / me2)).
    { rewrite <- (ln_exp c). 
      assert (He : exp c <= s / me2).
      { apply (Rmult_le_reg_r me2); [exact Hm |].
        replace (s / me2 * me2) with s by (field; lra).
        unfold sTPP in Hlt. fold c in Hlt. lra. }
      destruct He as [He | He].
      - left. apply ln_increasing; [apply exp_pos | exact He].
      - right. now rewrite He. }
    lra.
Qed.

Lemma sigmaTPP_below s : 0 <= s < sTPP -> sigmaTPP (Fin s) = Fin 0.
Proof.
  intros [[Hs | Hs] Hlt]; pose proof me2_pos as Hm.
  - assert (Hq : 0 < s / me2) by (apply Rdiv_lt_0_compat; lra).
    destruct (tpp_beta_sign s Hs) as [Hneg _]. specialize (Hneg Hlt).
    unfold sigmaTPP. cbv zeta. fl_norm lra. reflexivity.
  - subst s. unfold sigmaTPP. cbv zeta. fl_norm lra.
    rewrite flog_zero by (field; lra).
    cbn [fmul]. rewrite inf_of_sign_neg by lra. reflexivity.
Qed.

Lemma sigmaTPP_fin s :
  sTPP <= s ->
  sigmaTPP (Fin s)
  = Fin (sigmaThomson * 3 / 8 / PI * alpha * (28 / 9 * ln (s / me2) - 218 / 27)).
Proof.
  intros Hge. pose proof me2_pos as Hm. pose proof sTPP_pos as Hp.
  assert (Hs : 0 < s) by lra.
  assert (Hq : 0 < s / me2) by (apply Rdiv_lt_0_compat; lra).
  destruct (tpp_beta_sign s Hs) as [_ Hpos]. specialize (Hpos Hge).
  pose proof PI_RGT_0 as Hpi.
  unfold sigmaTPP. cbv zeta. fl_norm lra. reflexivity.
Qed.

Lemma tppR_nonneg s :
  sTPP <= s ->
  0 <= sigmaThomson * 3 / 8 / PI * alpha * (28 / 9 * ln (s / me2) - 218 / 27).
Proof.
  intros Hge. pose proof sTPP_pos as Hp.
  destruct (tpp_beta_sign s ltac:(lra)) as [_ Hpos]. specialize (Hpos Hge).
  pose proof PI_RGT_0 as Hpi. pose proof sigmaThomson_pos as Ht.
  pose proof alpha_pos as Ha.
  assert (Hip : 0 < / PI) by now apply Rinv_0_lt_compat.
  assert (Hc : 0 < sigmaThomson * 3 / 8) by lra.
  apply Rmult_le_pos; [| exact Hpos].
  left. unfold Rdiv.
  apply Rmult_lt_0_compat; [apply Rmult_lt_0_compat; [exact Hc | exact Hip] | exact Ha].
Qed.

Lemma sigmaTPP_negative s : s < 0 -> sigmaTPP (Fin s) = NaN.
Proof.
  intros Hs. pose proof me2_pos as Hm.
  assert (Hq : s / me2 < 0).
  { apply Ropp_lt_cancel. rewrite Ropp_0.
    replace (- (s / me2)) with ((- s) / me2) by (field; lra).
    apply Rdiv_lt_0_compat; lra. }
  pose proof PI_RGT_0 as Hpi.
  unfold sigmaTPP. cbv zeta. fl_norm lra.
  rewrite flog_neg by exact Hq. reflexivity.
Qed.

Lemma sigmaICS_at_threshold : sigmaICS (Fin me2) = NaN.
Proof.
  pose proof me2_pos as Hm.
  unfold sigmaICS. cbv zeta. rewrite flt_fin_false by lra.
  assert (Hb : ((Fin me2 - Fin me2) / (Fin me2 + Fin me2))%fl = Fin 0).
  { fl_norm lra. f_equal. field. lra. }
  rewrite Hb. fl_norm lra.
  rewrite (fdiv_zero 2 0) by reflexivity.
  rewrite (inf_of_sign_pos 2) by lra.
  rewrite (fdiv_zero _ (0 ^ 2)) by ring.
  rewrite (inf_of_sign_pos (2 - 3 * 0 ^ 2 - 0 ^ 3)) by lra.
  assert (HL : ln (1 + 0) - ln (1 + - 0) = 0).
  { replace (1 + - 0) with (1 + 0) by ring. ring. }
  rewrite HL. cbn [fmul]. rewrite (inf_of_sign_zero 0) by reflexivity.
  cbn [fdiv]. rewrite is_neg_false by lra.
  assert (Hc : 0 < sigmaThomson * 3 / 8 * me2 / me2).
  { replace (sigmaThomson * 3 / 8 * me2 / me2) with (sigmaThomson * 3 / 8)
      by (field; lra).
    pose proof sigmaThomson_pos. lra. }
  rewrite (inf_of_sign_pos _ Hc).
  now rewrite fsub_nan_r, fmul_nan_r.
Qed.

(** ** Thresholds of the cross sections *)




(** ** The stable logarithmic difference of [sigmaPP] *)



(** ** Grids *)

Lemma above_fin m l :
  above (Fin m) (map Fin l) = map Fin (List.filter (Rltb m) l).
Proof.
  unfold above. induction l as [| x l IH]; [reflexivity |].
  cbn [map List.filter]. change (Fin m <? Fin x)%fl with (Rltb m x).
  destruct (Rltb m x); cbn [map]; now rewrite IH.
Qed.

Lemma Rltb_true a b : Rltb a b = true <-> a < b.
Proof.
  unfold Rltb. destruct (Rlt_dec a b); split; intros; auto; discriminate.
Qed.

Lemma Rltb_false a b : Rltb a b = false <-> b <= a.
Proof.
  unfold Rltb. destruct (Rlt_dec a b); split; intros; auto; try discriminate; lra.
Qed.

Lemma linspace_fin a b n :
  (1 < n)%Z ->
  linspace (Fin a) (Fin b) n
  = map (fun i : Z => Fin (IZR i * ((b - a) / IZR (n - 1)) + a)) (seqZ 0 n).
Proof.
  intros Hn. unfold linspace. cbv zeta. apply map_ext_in. intros i Hi.
  apply list_elem_of_In, elem_of_seqZ in Hi.
  assert (Hd : IZR (n - 1) <> 0) by (apply not_0_IZR; lia).
  destruct (Z.ltb_spec 1 n) as [_ | ?]; [| lia].
  destruct (Z.eqb_spec i (n - 1)) as [-> | Hne]; cbn [andb].
  - f_equal. field. exact Hd.
  - destruct (Z.ltb_spec 0 (n - 1)) as [_ | ?]; [| lia].
    fl_norm assumption. reflexivity.
Qed.

Lemma grid_spec a b n c :
  (1 < n)%Z ->
  scale (logspace (Fin a) (Fin b) n) (Fin c) = map Fin (grid a b n c).
Proof.
  intros Hn. unfold scale, logspace, grid.
  rewrite linspace_fin by exact Hn. rewrite !map_map. reflexivity.
Qed.

Lemma grid_elem a b n c x :
  In x (grid a b n c) <->
  exists i : Z, (0 <= i < n)%Z /\
                x = Rpower 10 (IZR i * ((b - a) / IZR (n - 1)) + a) * c.
Proof.
  unfold grid. rewrite in_map_iff. split.
  - intros (i & <- & Hi). apply list_elem_of_In, elem_of_seqZ in Hi.
    exists i. split; [lia | reflexivity].
  - intros (i & Hi & ->). exists i. split; [reflexivity |].
    apply list_elem_of_In, elem_of_seqZ. lia.
Qed.

Lemma seqZ_sorted m n : StronglySorted Z.lt (seqZ m n).
Proof.
  destruct (Z.le_gt_cases n 0) as [Hn | Hn].
  - rewrite seqZ_nil by exact Hn. constructor.
  - rewrite <- (Z2Nat.id n) by lia. generalize (Z.to_nat n) as k. clear.
    intros k. revert m. induction k as [| k IH]; intros m.
    + rewrite seqZ_nil by lia. constructor.
    + rewrite seqZ_cons by lia. constructor.
      * replace (Z.pred (Z.of_nat (S k))) with (Z.of_nat k) by lia. apply IH.
      * apply Forall_forall. intros j Hj.
        apply elem_of_seqZ in Hj. lia.
Qed.

Lemma Rpower10_increasing x y : x < y -> Rpower 10 x < Rpower 10 y.
Proof. intros Hxy. apply Rpower_lt; lra. Qed.

Lemma grid_sorted a b n c :
  a < b -> 0 < c -> (1 < n)%Z -> StronglySorted Rlt (grid a b n c).
Proof.
  intros Hab Hc Hn. unfold grid.
  apply (StronglySorted_fmap _ Z.lt Rlt); [| apply seqZ_sorted].
  intros i j Hij.
  assert (Hstep : 0 < (b - a) / IZR (n - 1)).
  { apply Rdiv_lt_0_compat; [lra | apply IZR_lt; lia]. }
  apply Rmult_lt_compat_r; [exact Hc |].
  apply Rpower10_increasing. apply IZR_lt in Hij. nra.
Qed.

Lemma StronglySorted_filter {A} (R : A -> A -> Prop) (f : A -> bool) l :
  StronglySorted R l -> StronglySorted R (List.filter f l).
Proof.
  induction 1 as [| x l Hs IH Hall]; cbn [List.filter]; [constructor |].
  destruct (f x); [| exact IH].
  constructor; [exact IH |].
  apply Forall_forall. intros y Hy.
  apply list_elem_of_In, filter_In in Hy as [Hy _].
  rewrite Forall_forall in Hall. apply Hall. now apply list_elem_of_In.
Qed.

(** ** Linear interpolation *)

Lemma last_map_Fin (l : list R) :
  l <> [] -> List.last (map Fin l) NaN = Fin (List.last l 0).
Proof.
  induction l as [| x [| y l] IH]; intros Hne; [congruence | reflexivity |].
  change (List.last (map Fin (y :: l)) NaN = Fin (List.last (y :: l) 0)).
  now apply IH.
Qed.

Lemma scanR_cons2 x x0 x1 xs f0 f1 fs :
  scanR x (x0 :: x1 :: xs) (f0 :: f1 :: fs)
  = if Rltb x x1 then
      if Req_dec_T x0 x then f0 else (f1 - f0) / (x1 - x0) * (x - x0) + f0
    else scanR x (x1 :: xs) (f1 :: fs).
Proof. reflexivity. Qed.

Lemma interp_scan_cons2 x x0 x1 xs f0 f1 fs :
  interp_scan x (x0 :: x1 :: xs) (f0 :: f1 :: fs)
  = if (x <? x1)%fl then
      if (x0 =? x)%fl then f0 else ((f1 - f0) / (x1 - x0) * (x - x0) + f0)%fl
    else interp_scan x (x1 :: xs) (f1 :: fs).
Proof. reflexivity. Qed.

Lemma interp_scan_fin x xs fs :
  StronglySorted Rlt xs -> length fs = length xs -> xs <> [] ->
  interp_scan (Fin x) (map Fin xs) (map Fin fs) = Fin (scanR x xs fs).
Proof.
  intros Hs. revert fs.
  induction Hs as [| x0 xs Hs IH Hall]; intros fs Hlen Hne; [congruence |].
  destruct fs as [| f0 fs]; [discriminate |].
  destruct xs as [| x1 xs]; [reflexivity |].
  destruct fs as [| f1 fs]; [discriminate |].
  apply Forall_inv in Hall.
  cbn [map]. rewrite interp_scan_cons2, scanR_cons2.
  change (Fin x <? Fin x1)%fl with (Rltb x x1).
  destruct (Rltb x x1).
  - cbn [feq]. destruct (Req_dec_T x0 x); [reflexivity |].
    fl_norm lra. reflexivity.
  - apply (IH (f1 :: fs)); [cbn [length] in *; lia | discriminate].
Qed.

Lemma interp1_fin x xs fs :
  StronglySorted Rlt xs -> length fs = length xs -> xs <> [] ->
  interp1 (Fin x) (map Fin xs) (map Fin fs) = Fin (interpR x xs fs).
Proof.
  intros Hs Hlen Hne.
  assert (Hfs : fs <> []) by (destruct fs, xs; try discriminate; congruence).
  assert (Hgen :
    (if is_nan (Fin x) then Fin x
     else if (List.last (map Fin xs) NaN <? Fin x)%fl then List.last (map Fin fs) NaN
     else if (Fin x <? List.hd NaN (map Fin xs))%fl then List.hd NaN (map Fin fs)
     else interp_scan (Fin x) (map Fin xs) (map Fin fs))
    = Fin (if Rltb (List.last xs 0) x then List.last fs 0
           else if Rltb x (List.hd 0 xs) then List.hd 0 fs
           else scanR x xs fs)).
  { cbn [is_nan]. rewrite !last_map_Fin by assumption.
    change (Fin (List.last xs 0) <? Fin x)%fl with (Rltb (List.last xs 0) x).
    destruct (Rltb (List.last xs 0) x); [reflexivity |].
    destruct xs as [| x0 xs]; [congruence |].
    destruct fs as [| f0 fs]; [congruence |].
    cbn [map List.hd].
    change (Fin x <? Fin x0)%fl with (Rltb x x0).
    destruct (Rltb x x0); [reflexivity |].
    now apply (interp_scan_fin x (x0 :: xs) (f0 :: fs)). }
  destruct xs as [| x0 [| x1 xs]]; [congruence | |].
  - destruct fs as [| f0 [| f1 fs]]; try discriminate. reflexivity.
  - destruct fs as [| f0 [| f1 fs]]; try discriminate. exact Hgen.
Qed.

Lemma slope_nonneg x0 x1 f0 f1 :
  x0 < x1 -> f0 <= f1 -> 0 <= (f1 - f0) / (x1 - x0).
Proof.
  intros Hx Hf. apply Rmult_le_pos; [lra |].
  left. apply Rinv_0_lt_compat. lra.
Qed.

Lemma slope_end x0 x1 f0 f1 :
  x0 < x1 -> (f1 - f0) / (x1 - x0) * (x1 - x0) + f0 = f1.
Proof. intros Hx. field. lra. Qed.

Lemma last_cons2 {A} (a b : A) l d : List.last (a :: b :: l) d = List.last (b :: l) d.
Proof. reflexivity. Qed.

Lemma sorted_le_last (fs : list R) y :
  StronglySorted Rle fs -> In y fs -> y <= List.last fs 0.
Proof.
  intros Hs. revert y.
  induction Hs as [| f0 fs Hs IH Hall]; intros y Hy; [destruct Hy |].
  destruct fs as [| f1 fs].
  - destruct Hy as [<- | []]. cbn. lra.
  - rewrite last_cons2. destruct Hy as [<- | Hy]; [| now apply IH].
    apply Forall_inv in Hall. specialize (IH f1 (or_introl eq_refl)). lra.
Qed.

Lemma scanR_lower x xs fs :
  StronglySorted Rlt xs -> StronglySorted Rle fs -> length fs = length xs ->
  List.hd 0 xs <= x -> List.hd 0 fs <= scanR x xs fs.
Proof.
  intros Hs. revert fs.
  induction Hs as [| x0 xs Hs IH Hall]; intros fs Hf Hlen Hx.
  { destruct fs; [cbn; lra | discriminate]. }
  destruct fs as [| f0 fs]; [discriminate |].
  destruct xs as [| x1 xs]; [cbn; lra |].
  destruct fs as [| f1 fs]; [discriminate |].
  apply Forall_inv in Hall. inversion Hf as [| ? ? Hf' Hfall]; subst.
  pose proof (Forall_inv Hfall) as Hf01.
  cbn [List.hd] in *. rewrite scanR_cons2.
  destruct (Rltb x x1) eqn:Hlt.
  - destruct (Req_dec_T x0 x); [lra |].
    pose proof (slope_nonneg x0 x1 f0 f1 Hall Hf01). nra.
  - apply Rltb_false in Hlt.
    specialize (IH (f1 :: fs) Hf' ltac:(cbn [length] in *; lia) Hlt).
    cbn [List.hd] in IH. lra.
Qed.

Lemma scanR_upper x xs fs :
  StronglySorted Rlt xs -> StronglySorted Rle fs -> length fs = length xs ->
  List.hd 0 xs <= x -> scanR x xs fs <= List.last fs 0.
Proof.
  intros Hs. revert fs.
  induction Hs as [| x0 xs Hs IH Hall]; intros fs Hf Hlen Hx.
  { destruct fs; [cbn; lra | discriminate]. }
  destruct fs as [| f0 fs]; [discriminate |].
  destruct xs as [| x1 xs].
  { destruct fs; [cbn; lra | discriminate]. }
  destruct fs as [| f1 fs]; [discriminate |].
  apply Forall_inv in Hall. inversion Hf as [| ? ? Hf' Hfall]; subst.
  pose proof (Forall_inv Hfall) as Hf01.
  cbn [List.hd] in *. rewrite last_cons2, scanR_cons2.
  assert (Hl0 : f0 <= List.last (f1 :: fs) 0).
  { pose proof (sorted_le_last (f1 :: fs) f1 Hf' (or_introl eq_refl)). lra. }
  assert (Hl1 : f1 <= List.last (f1 :: fs) 0).
  { apply sorted_le_last; [exact Hf' | now left]. }
  destruct (Rltb x x1) eqn:Hlt.
  - destruct (Req_dec_T x0 x); [lra |].
    apply Rltb_true in Hlt.
    pose proof (slope_nonneg x0 x1 f0 f1 Hall Hf01) as Hk.
    pose proof (slope_end x0 x1 f0 f1 Hall) as He. nra.
  - apply Rltb_false in Hlt.
    apply (IH (f1 :: fs) Hf' ltac:(cbn [length] in *; lia) Hlt).
Qed.

Lemma scanR_mono x y xs fs :
  StronglySorted Rlt xs -> StronglySorted Rle fs -> length fs = length xs ->
  List.hd 0 xs <= x -> x <= y -> scanR x xs fs <= scanR y xs fs.
Proof.
  intros Hs. revert fs.
  induction Hs as [| x0 xs Hs IH Hall]; intros fs Hf Hlen Hx Hxy.
  { destruct fs; [cbn; lra | discriminate]. }
  destruct fs as [| f0 fs]; [discriminate |].
  destruct xs as [| x1 xs]; [cbn; lra |].
  destruct fs as [| f1 fs]; [discriminate |].
  pose proof (Forall_inv Hall) as H01. inversion Hf as [| ? ? Hf' Hfall]; subst.
  pose proof (Forall_inv Hfall) as Hf01.
  cbn [List.hd] in Hx. rewrite !scanR_cons2.
  pose proof (slope_nonneg x0 x1 f0 f1 H01 Hf01) as Hk.
  pose proof (slope_end x0 x1 f0 f1 H01) as He.
  assert (Hlen' : length (f1 :: fs) = length (x1 :: xs)) by (cbn [length] in *; lia).
  destruct (Rltb x x1) eqn:Hlx; destruct (Rltb y x1) eqn:Hly.
  - apply Rltb_true in Hlx, Hly.
    destruct (Req_dec_T x0 x), (Req_dec_T x0 y); nra.
  - apply Rltb_true in Hlx. apply Rltb_false in Hly.
    pose proof (scanR_lower y (x1 :: xs) (f1 :: fs) Hs Hf' Hlen' Hly) as Hlow.
    cbn [List.hd] in Hlow.
    destruct (Req_dec_T x0 x); nra.
  - apply Rltb_false in Hlx. apply Rltb_true in Hly. lra.
  - apply Rltb_false in Hlx, Hly.
    apply (IH (f1 :: fs) Hf' Hlen' Hlx Hxy).
Qed.

Lemma sorted_hd_le_last (fs : list R) :
  StronglySorted Rle fs -> List.hd 0 fs <= List.last fs 0.
Proof.
  intros Hs. destruct fs as [| f0 fs]; [cbn; lra |].
  apply sorted_le_last; [exact Hs | now left].
Qed.

(** [np.interp] is non-decreasing in [x] when the samples are. *)
Lemma interpR_mono x y xs fs :
  StronglySorted Rlt xs -> StronglySorted Rle fs -> length fs = length xs ->
  x <= y -> interpR x xs fs <= interpR y xs fs.
Proof.
  intros Hs Hf Hlen Hxy.
  assert (Hgen :
    (if Rltb (List.last xs 0) x then List.last fs 0
     else if Rltb x (List.hd 0 xs) then List.hd 0 fs else scanR x xs fs)
    <= (if Rltb (List.last xs 0) y then List.last fs 0
        else if Rltb y (List.hd 0 xs) then List.hd 0 fs else scanR y xs fs)).
  { pose proof (sorted_hd_le_last fs Hf) as Hhl.
    destruct (Rltb (List.last xs 0) y) eqn:Hly.
    - destruct (Rltb (List.last xs 0) x); [lra |].
      destruct (Rltb x (List.hd 0 xs)) eqn:Hhx; [exact Hhl |].
      apply Rltb_false in Hhx. now apply scanR_upper.
    - apply Rltb_false in Hly.
      destruct (Rltb (List.last xs 0) x) eqn:Hlx; [apply Rltb_true in Hlx; lra |].
      destruct (Rltb y (List.hd 0 xs)) eqn:Hhy.
      + apply Rltb_true in Hhy.
        destruct (Rltb x (List.hd 0 xs)) eqn:Hhx; [lra |].
        apply Rltb_false in Hhx. lra.
      + apply Rltb_false in Hhy.
        destruct (Rltb x (List.hd 0 xs)) eqn:Hhx.
        * now apply scanR_lower.
        * apply Rltb_false in Hhx. now apply scanR_mono. }
  unfold interpR.
  destruct xs as [| x0 [| x1 xs]]; [exact Hgen | | exact Hgen].
  destruct fs as [| f0 [| f1 fs]]; [exact Hgen | lra | exact Hgen].
Qed.

(** At a sample point [np.interp] returns the sample. *)
Lemma scanR_at_sample xs fs k x :
  StronglySorted Rlt xs -> length fs = length xs ->
  nth_error xs k = Some x ->
  nth_error fs k = Some (scanR x xs fs).
Proof.
  intros Hs. revert fs k.
  induction Hs as [| x0 xs Hs IH Hall]; intros fs k Hlen Hk.
  { destruct k; discriminate. }
  destruct fs as [| f0 fs]; [discriminate |].
  destruct xs as [| x1 xs].
  { destruct k as [| [| k]]; try discriminate. reflexivity. }
  destruct fs as [| f1 fs]; [discriminate |].
  rewrite scanR_cons2. destruct k as [| k].
  - injection Hk as <-. pose proof (Forall_inv Hall) as H01.
    destruct (Rltb x0 x1) eqn:Hlt; [| apply Rltb_false in Hlt; lra].
    destruct (Req_dec_T x0 x0); [reflexivity | congruence].
  - cbn [nth_error] in Hk |- *.
    assert (Hge : x1 <= x).
    { destruct k as [| k]; [injection Hk as <-; lra |].
      inversion Hs as [| ? ? _ Hall1]; subst.
      rewrite Forall_forall in Hall1. left. apply Hall1.
      apply list_elem_of_In. cbn [nth_error] in Hk.
      apply (nth_error_In _ _ Hk). }
    destruct (Rltb x x1) eqn:Hlt; [apply Rltb_true in Hlt; lra |].
    apply (IH (f1 :: fs) k); [cbn [length] in *; lia | exact Hk].
Qed.

Lemma interpR_at_sample xs fs k x :
  StronglySorted Rlt xs -> length fs = length xs ->
  nth_error xs k = Some x ->
  nth_error fs k = Some (interpR x xs fs).
Proof.
  intros Hs Hlen Hk.
  assert (Hin : In x xs) by apply (nth_error_In _ _ Hk).
  assert (Hlast : x <= List.last xs 0).
  { assert (Hle : StronglySorted Rle xs).
    { clear -Hs. induction Hs; constructor; [assumption |].
      eapply Forall_impl; [eassumption |]. intros; cbn in *; lra. }
    now apply sorted_le_last. }
  assert (Hhd : List.hd 0 xs <= x).
  { destruct xs as [| x0 xs]; [destruct Hin |]. cbn [List.hd].
    destruct Hin as [-> | Hin]; [lra |].
    inversion Hs as [| ? ? _ Hall]; subst. rewrite Forall_forall in Hall.
    left. apply Hall. now apply list_elem_of_In. }
  assert (Hgen :
    nth_error fs k
    = Some (if Rltb (List.last xs 0) x then List.last fs 0
            else if Rltb x (List.hd 0 xs) then List.hd 0 fs else scanR x xs fs)).
  { destruct (Rltb (List.last xs 0) x) eqn:H1; [apply Rltb_true in H1; lra |].
    destruct (Rltb x (List.hd 0 xs)) eqn:H2; [apply Rltb_true in H2; lra |].
    now apply scanR_at_sample. }
  unfold interpR.
  destruct xs as [| x0 [| x1 xs]]; [exact Hgen | | exact Hgen].
  destruct fs as [| f0 [| f1 fs]]; [exact Hgen | | exact Hgen].
  destruct k as [| [| k]]; try discriminate. reflexivity.
Qed.

(** ** The density-integral cache *)

Section CacheProperties.
Context `{Extern}.

Lemma mapM_quad0 f b l w :
  mapM (fun a => quad0 f a b) l w
  = ({| dirs := dirs w; files := files w;
        quad_calls := (length l + quad_calls w)%nat |},
     Ok (map (fun a => integral (quad f a b)) l)).
Proof.
  revert w. induction l as [| a l IH]; intros w.
  - destruct w. reflexivity.
  - cbn [mapM]. unfold bind at 1. unfold quad0 at 1.
    unfold bind at 1. rewrite IH. cbn. unfold ret. do 3 f_equal. lia.
Qed.

Lemma files_with_dir p w : files (with_dir p w) = files w.
Proof. unfold with_dir. now destruct (bool_decide _). Qed.

Lemma quad_calls_with_dir p w : quad_calls (with_dir p w) = quad_calls w.
Proof. unfold with_dir. now destruct (bool_decide _). Qed.

Lemma with_dir_idem p w : with_dir p (with_dir p w) = with_dir p w.
Proof.
  unfold with_dir. destruct (bool_decide (p ∈ dirs w)) eqn:Hd.
  - now rewrite Hd.
  - cbn [dirs]. rewrite bool_decide_eq_true_2; [reflexivity | set_solver].
Qed.

(** a cache hit: nothing is integrated, nothing is written *)
Lemma calculateDensityIntegral_hit field w t :
  files w !! density_file field = Some t ->
  calculateDensityIntegral field w = (with_dir "data/fieldDensity/" w, Ok tt).
Proof.
  intros Hf. unfold calculateDensityIntegral, density_file in *. cbv zeta.
  unfold bind, isdir, isfile, with_dir.
  destruct (bool_decide ("data/fieldDensity/" ∈ dirs w)); cbn [negb].
  - unfold ret. rewrite Hf. rewrite bool_decide_eq_true_2 by eauto. reflexivity.
  - unfold makedirs. cbn [files]. rewrite Hf.
    rewrite bool_decide_eq_true_2 by eauto. reflexivity.
Qed.

(** a cache miss: one [quad] per bound, and the estimates are written *)
Lemma calculateDensityIntegral_miss field w :
  files w !! density_file field = None ->
  calculateDensityIntegral field w
  = ({| dirs := dirs (with_dir "data/fieldDensity/" w);
        files := <[density_file field :=
                    {| header := density_header;
                       rows := zip_with (fun c x => [c; x]) (density_bounds field)
                                 (map (fun a => integral (quad (density_integrand field) a
                                                           (photonField.getEmax field)))
                                      (density_bounds field)) |}]> (files w);
        quad_calls := (length (density_bounds field) + quad_calls w)%nat |},
     Ok tt).
Proof.
  intros Hf. unfold calculateDensityIntegral, density_file in *. cbv zeta.
  fold (density_bounds field). fold (density_integrand field).
  unfold bind at 1. unfold isdir at 1. unfold bind at 1.
  assert (Hstep :
    (if negb (bool_decide ("data/fieldDensity/" ∈ dirs w))
     then makedirs "data/fieldDensity/" else ret tt) w
    = (with_dir "data/fieldDensity/" w, Ok tt)).
  { unfold with_dir. destruct (bool_decide _); reflexivity. }
  rewrite Hstep. unfold bind at 1. unfold isfile at 1.
  rewrite files_with_dir, Hf.
  rewrite bool_decide_eq_false_2 by (intros [? ?]; discriminate).
  unfold bind at 1. rewrite mapM_quad0.
  unfold bind, lift, np_c_. rewrite length_map, Nat.eqb_refl.
  unfold savetxt. cbn [dirs files quad_calls].
  now rewrite files_with_dir, quad_calls_with_dir.
Qed.

Lemma with_dir_elem p w : p ∈ dirs (with_dir p w).
Proof.
  unfold with_dir. destruct (bool_decide (p ∈ dirs w)) eqn:Hd.
  - now apply bool_decide_eq_true in Hd.
  - cbn [dirs]. set_solver.
Qed.

Lemma with_dir_id p w : p ∈ dirs w -> with_dir p w = w.
Proof. intros Hp. unfold with_dir. now rewrite bool_decide_eq_true_2. Qed.

(** C3.  The cache build is idempotent per field name.  When the file of the
    field exists, [calculateDensityIntegral] returns without a single [quad]
    evaluation and leaves every persisted table as it was; and running the
    build twice leaves the world that running it once leaves. *)
Theorem density_cache_idempotent (field : Field) (w : world) :
  (forall t, files w !! density_file field = Some t ->
     snd (calculateDensityIntegral field w) = Ok tt /\
     files (fst (calculateDensityIntegral field w)) = files w /\
     quad_calls (fst (calculateDensityIntegral field w)) = quad_calls w) /\
  (calculateDensityIntegral field ;;; calculateDensityIntegral field) w
  = calculateDensityIntegral field w.
Proof.
  split.
  - intros t Ht. rewrite (calculateDensityIntegral_hit field w t Ht).
    cbn [fst snd]. now rewrite files_with_dir, quad_calls_with_dir.
  - unfold bind. destruct (files w !! density_file field) as [t |] eqn:Hf.
    + rewrite (calculateDensityIntegral_hit field w t Hf).
      rewrite (calculateDensityIntegral_hit field _ t)
        by now rewrite files_with_dir.
      now rewrite with_dir_idem.
    + rewrite (calculateDensityIntegral_miss field w Hf).
      erewrite calculateDensityIntegral_hit
        by (cbn [files]; apply lookup_insert_eq).
      f_equal. apply with_dir_id. cbn [dirs]. apply with_dir_elem.
Qed.

(** C4, as the code has it.  On a cache miss [calculateDensityIntegral]
    returns normally, and the entry of every lower bound is the estimate that
    [quad] returns for it, whether or not that quadrature converged. *)
Theorem density_integral_stores_estimate (field : Field) (w : world) :
  files w !! density_file field = None ->
  snd (calculateDensityIntegral field w) = Ok tt /\
  exists t,
    files (fst (calculateDensityIntegral field w)) !! density_file field = Some t /\
    forall (i : nat) (a : npfloat),
      density_bounds field !! i = Some a ->
      rows t !! i
      = Some [a; integral (quad (density_integrand field) a
                            (photonField.getEmax field))].
Proof.
  intros Hf. rewrite (calculateDensityIntegral_miss field w Hf). cbn [fst snd files].
  split; [reflexivity |]. eexists. split; [apply lookup_insert_eq |].
  intros i a Hi. cbn [rows].
  rewrite lookup_zip_with, Hi. cbn.
  change (map ?f ?l) with (f <$> l). now rewrite list_lookup_fmap, Hi.
Qed.

End CacheProperties.

Lemma density_cache_idempotent_witness :
  let w := {| dirs := ∅;
              files := {[ density_file flat_field := {| header := "# cached"; rows := [] |} ]};
              quad_calls := 0 |} in
  files w !! density_file flat_field = Some {| header := "# cached"; rows := [] |} /\
  files (fst (calculateDensityIntegral (H := sample_extern) flat_field w)) = files w.
Proof.
  intros w. split; [apply lookup_singleton_eq |].
  apply (proj1 (density_cache_idempotent (H := sample_extern) flat_field w)
           {| header := "# cached"; rows := [] |}).
  apply lookup_singleton_eq.
Defined.

Lemma density_integral_stores_estimate_witness :
  files empty_world !! density_file flat_field = None /\
  snd (calculateDensityIntegral (H := sample_extern) flat_field empty_world) = Ok tt.
Proof.
  split; [apply lookup_empty |].
  apply (density_integral_stores_estimate (H := sample_extern) flat_field empty_world).
  apply lookup_empty.
Defined.

(** C4 fails as stated.  With a quadrature that converges for no bound, the
    build on an empty world raises nothing, let alone [IntegrationFailure]: it
    returns normally and the table of the field is written, with the estimate
    0 that [quad] returned in each of its rows. *)
Lemma nonconverged_estimate_is_stored :
  (forall f a b, converged (quad (Extern := sample_extern) f a b) = false) /\
  snd (calculateDensityIntegral (H := sample_extern) flat_field empty_world) = Ok tt /\
  exists t,
    files (fst (calculateDensityIntegral (H := sample_extern) flat_field empty_world))
      !! density_file flat_field = Some t /\
    rows t = zip_with (fun c x => [c; x]) (density_bounds flat_field)
               (map (fun _ => Fin 0) (density_bounds flat_field)) /\
    rows t <> [].
Proof.
  split; [reflexivity |].
  rewrite (calculateDensityIntegral_miss (H := sample_extern) flat_field empty_world)
    by apply lookup_empty.
  cbn [fst snd files]. split; [reflexivity |].
  eexists. split; [apply lookup_insert_eq |]. cbn [rows]. split; [reflexivity |].
  intros Hnil. apply (f_equal length) in Hnil.
  rewrite length_zip_with, length_map in Hnil.
  unfold density_bounds, logspace, linspace in Hnil.
  rewrite !length_map, length_seqZ in Hnil. cbn [length] in Hnil. lia.
Qed.


(** ** Unrecognised selectors *)

(** C2, as the code has it.  For every function that is not one of the four
    catalogued cross sections, [getTabulatedXS] returns the value [False] and
    raises nothing, and [getSmin] (and with it [getEmin]) raises the
    [KeyError] of the dictionary look-up. *)
Theorem unknown_selector (f : npfloat -> npfloat) (skin : list npfloat) (field : Field) :
  getTabulatedXS (OtherFn f) skin = XSFalse /\
  getSmin (OtherFn f) = Raise KeyError /\
  getEmin (OtherFn f) field = Raise KeyError.
Proof. repeat split. Qed.

(** C2 fails as stated: for the identity function as selector
    [getTabulatedXS] returns [False], which is no exception at all, and
    [getSmin] raises [KeyError], which is not [UnknownProcess]. *)
Lemma unknown_selector_counterexample :
  getTabulatedXS (OtherFn (fun s => s)) [Fin 1] = XSFalse /\
  getSmin (OtherFn (fun s => s)) = Raise KeyError /\
  getSmin (OtherFn (fun s => s)) <> Raise UnknownProcess.
Proof. repeat split. discriminate. Qed.

(** The catalogued selectors are the ones that are served. *)
Lemma known_selector (sigma : callable) :
  (exists smin, getSmin sigma = Ok (Fin smin) /\ 0 < smin) <->
  (forall f, sigma <> OtherFn f).
Proof.
  pose proof me2_pos as Hm. split.
  - intros (smin & Hs & _) f ->. discriminate.
  - intros Hne. destruct sigma; cbn [getSmin]; fl_norm lra.
    + eexists. split; [reflexivity | lra].
    + eexists. split; [reflexivity | lra].
    + eexists. split; [reflexivity | unfold Rdiv in *; nra].
    + eexists. split; [reflexivity |].
      assert (1 < exp (218 / 27 / (28 / 9))).
      { rewrite <- exp_0. apply exp_increasing. lra. }
      nra.
    + now destruct (Hne f).
Qed.

(** ** Rows of the written tables *)

Lemma rate_file_ne_cdf_file name field : cdf_file name field <> rate_file name field.
Proof.
  unfold cdf_file, rate_file. intros Heq.
  apply (inj (String.app _)) in Heq. discriminate.
Qed.

Lemma hd_zip_with_pair (col v : list npfloat) :
  length v = length col ->
  map (List.hd NaN) (zip_with (fun c x => [c; x]) col v) = col.
Proof.
  revert v. induction col as [| c col IH]; intros [| x v] Hlen;
    try discriminate; [reflexivity |].
  cbn [zip_with map List.hd]. f_equal. apply IH. cbn [length] in Hlen. lia.
Qed.

Lemma hd_zip_with_cons (col : list npfloat) (m : list (list npfloat)) :
  length m = length col ->
  map (List.hd NaN) (zip_with (fun c r => c :: r) col m) = col.
Proof.
  revert m. induction col as [| c col IH]; intros [| r m] Hlen;
    try discriminate; [reflexivity |].
  cbn [zip_with map List.hd]. f_equal. apply IH. cbn [length] in Hlen. lia.
Qed.

Lemma np_c_hd col a data :
  np_c_ col a = Ok data -> map (List.hd NaN) data = col.
Proof.
  destruct a as [v | m]; cbn [np_c_].
  - destruct (Nat.eqb_spec (length v) (length col)) as [Hlen | Hlen];
      intros Heq; [| discriminate]. injection Heq as <-.
    now apply hd_zip_with_pair.
  - destruct (Nat.eqb_spec (length m) (length col)) as [Hlen | Hlen];
      intros Heq; [| discriminate]. injection Heq as <-.
    now apply hd_zip_with_cons.
Qed.


(** ** The driver *)

Lemma Rpower10_23 : Rpower 10 23 = 10 ^ 23.
Proof.
  rewrite <- (Rpower_pow 23 10) by lra. f_equal.
  rewrite INR_IZR_INZ. reflexivity.
Qed.

Lemma grid_upper a b n c x :
  a < b -> 0 < c -> (1 < n)%Z -> In x (grid a b n c) -> x <= Rpower 10 b * c.
Proof.
  intros Hab Hc Hn Hx. apply grid_elem in Hx as (i & Hi & ->).
  apply Rmult_le_compat_r; [lra |]. apply Rle_Rpower; [lra |].
  assert (Hd : 0 < IZR (n - 1)) by (apply IZR_lt; lia).
  assert (Hi' : IZR i <= IZR (n - 1)) by (apply IZR_le; lia).
  assert (Hstep : 0 < (b - a) / IZR (n - 1)) by (apply Rdiv_lt_0_compat; lra).
  replace b with (IZR (n - 1) * ((b - a) / IZR (n - 1)) + a) at 2 by (field; lra).
  nra.
Qed.

Lemma grid_last a b n c :
  (1 < n)%Z -> In (Rpower 10 b * c) (grid a b n c).
Proof.
  intros Hn. apply grid_elem. exists (n - 1)%Z. split; [lia |].
  do 2 f_equal. field. apply not_0_IZR. lia.
Qed.

Lemma filter_nil_iff {A} (f : A -> bool) l :
  List.filter f l = [] <-> forall x, In x l -> f x = false.
Proof.
  induction l as [| a l IH]; cbn [List.filter]; [now split |].
  destruct (f a) eqn:Ha; split.
  - discriminate.
  - intros Hall. specialize (Hall a (or_introl eq_refl)). congruence.
  - intros Hnil x [<- | Hx]; [exact Ha | now apply IH].
  - intros Hall. apply IH. intros x Hx. apply Hall. now right.
Qed.

Section ProcessProperties.
Context `{Extern}.

Lemma bind_run {A B} (m : M A) (k : A -> M B) w :
  bind m k w = match m w with
               | (w', Ok a) => k a w'
               | (w', Raise e) => (w', Raise e)
               end.
Proof. reflexivity. Qed.

Lemma ensure_dir_run (b : bool) p w :
  (if negb b then makedirs p else ret tt) w
  = ((if b then w
      else {| dirs := {[p]} ∪ dirs w; files := files w; quad_calls := quad_calls w |}),
     Ok tt).
Proof. now destruct b. Qed.

Lemma cache_step_run field w :
  exists w2,
    (if negb (bool_decide (is_Some (files w !! density_file field)))
     then calculateDensityIntegral field else ret tt) w = (w2, Ok tt).
Proof.
  destruct (files w !! density_file field) as [t |] eqn:Hf.
  - rewrite bool_decide_eq_true_2 by eauto. now exists w.
  - rewrite bool_decide_eq_false_2 by (intros [? ?]; discriminate).
    cbn [negb]. rewrite (calculateDensityIntegral_miss field w Hf). eauto.
Qed.

Lemma getSmin_of_getEmin sigma field Emin :
  getEmin sigma field = Ok Emin -> exists smin, getSmin sigma = Ok smin.
Proof.
  unfold getEmin. destruct (getSmin sigma); [eauto | discriminate].
Qed.

Lemma mapM_lift_raise {A B} (f : A -> result B) (e : exn) a l w :
  f a = Raise e -> mapM (fun r => lift (f r)) (a :: l) w = (w, Raise e).
Proof. intros Hf. cbn [mapM]. rewrite bind_run. unfold lift at 1. now rewrite Hf. Qed.

(** the steps of [process] up to the first rate integration *)
Ltac run_prefix field Hemin Hrun :=
  unfold process in Hrun; cbv zeta in Hrun;
  rewrite bind_run in Hrun; unfold path_exists at 1 in Hrun; cbv beta iota in Hrun;
  rewrite bind_run, ensure_dir_run in Hrun;
  rewrite bind_run in Hrun; unfold lift at 1 in Hrun; rewrite Hemin in Hrun;
  cbv beta iota in Hrun;
  rewrite bind_run in Hrun; unfold isfile at 1 in Hrun; cbv beta iota in Hrun;
  rewrite bind_run in Hrun; unfold density_file in *;
  match type of Hrun with
  | context [(if negb (bool_decide (is_Some (files ?w1 !! _))) then _ else _) ?w1] =>
      let w2 := fresh "w2" in
      let Hw2 := fresh "Hw2" in
      destruct (cache_step_run field w1) as [w2 Hw2]; unfold density_file in Hw2;
      rewrite Hw2 in Hrun; clear Hw2
  end;
  rewrite bind_run in Hrun; cbv beta iota in Hrun.

Ltac calc_raised e :=
  exists e; split; [reflexivity |]; right; right;
  unfold raised_by_calc_rate_s; eauto 10.

Ltac value_error e Hc :=
  exists e; split; [reflexivity |]; right; left;
  match type of Hc with
  | np_c_ _ ?rate = _ =>
      destruct rate; cbn [np_c_] in Hc; destruct (_ =? _)%nat; congruence
  end.

(** *** Empty grids *)

(** no particle energy: the run ends at [E[0]] at the latest *)
Lemma process_without_energies sigma field name w Emin smin :
  getEmin sigma field = Ok Emin ->
  getSmin sigma = Ok smin ->
  above Emin (scale (logspace 9 23 281) eV) = [] ->
  (exists e, snd (process sigma field name w) = Raise e /\
     (e = IndexError \/ e = ValueError \/ raised_by_calc_rate_s field e)) /\
  ((forall fs skin xs, calc_rate_s fs skin xs [] field false = Ok (Arr1 [])) ->
   snd (process sigma field name w) = Raise IndexError /\
   exists t, files (fst (process sigma field name w)) !! rate_file name field = Some t /\
             rows t = []).
Proof.
  intros Hemin Hsmin HE.
  remember (process sigma field name w) as run eqn:Hrun.
  run_prefix field Hemin Hrun. rewrite !HE in Hrun.
  match type of Hrun with
  | context [calc_rate_s ?fs ?sk ?xs [] field false] =>
      destruct (calc_rate_s fs sk xs [] field false) as [rate | e] eqn:Hcalc
  end.
  - rewrite bind_run in Hrun. unfold lift at 1 in Hrun. cbn [map] in Hrun.
    destruct (np_c_ [] rate) as [data | e] eqn:Hc.
    + rewrite bind_run in Hrun. unfold savetxt at 1 in Hrun.
      cbv beta iota in Hrun.
      rewrite bind_run in Hrun. unfold lift at 1 in Hrun. rewrite Hsmin in Hrun.
      rewrite bind_run in Hrun. unfold lift at 1 in Hrun. cbv beta iota in Hrun.
      subst run. cbn [fst snd files].
      split; [eauto |]. intros Hall. split; [reflexivity |].
      eexists. split; [apply lookup_insert_eq |]. cbn [rows].
      rewrite Hall in Hcalc. injection Hcalc as <-.
      cbn in Hc. now injection Hc as <-.
    + subst run. cbn [snd]. split; [value_error e Hc |].
      intros Hall. rewrite Hall in Hcalc. injection Hcalc as <-.
      discriminate.
  - subst run. cbn [snd]. split; [calc_raised e |].
    intros Hall. rewrite Hall in Hcalc. discriminate.
Qed.

(** no [s_kin] value: the interpolation has no sample points *)
Lemma process_without_skin sigma field name w Emin smin E0 E' :
  getEmin sigma field = Ok Emin ->
  getSmin sigma = Ok smin ->
  above Emin (scale (logspace 9 23 281) eV) = E0 :: E' ->
  above (py_max smin (4 * photonField.getEmin field * E0)%fl)
        (scale (logspace 4 23 (380000 + 1)) (eV ** 2)%fl) = [] ->
  exists e, snd (process sigma field name w) = Raise e /\
    (e = IndexError \/ e = ValueError \/ raised_by_calc_rate_s field e).
Proof.
  intros Hemin Hsmin HE Hskin.
  remember (process sigma field name w) as run eqn:Hrun.
  run_prefix field Hemin Hrun. rewrite !HE in Hrun.
  match type of Hrun with
  | context [calc_rate_s ?fs ?sk ?xs ?E field false] =>
      destruct (calc_rate_s fs sk xs E field false) as [rate | e] eqn:Hcalc
  end; [| subst run; cbn [snd]; calc_raised e].
  rewrite bind_run in Hrun. unfold lift at 1 in Hrun.
  match type of Hrun with
  | context [np_c_ ?col rate] =>
      destruct (np_c_ col rate) as [data | e] eqn:Hc
  end; [| subst run; cbn [snd]; value_error e Hc].
  rewrite bind_run in Hrun. unfold savetxt at 1 in Hrun. cbv beta iota in Hrun.
  rewrite bind_run in Hrun. unfold lift at 1 in Hrun. rewrite Hsmin in Hrun.
  rewrite bind_run in Hrun. unfold lift at 1 in Hrun. cbv beta iota in Hrun.
  rewrite !Hskin in Hrun.
  rewrite bind_run in Hrun. cbv beta iota in Hrun.
  match type of Hrun with
  | context [calc_rate_s ?fs ?sk ?xs ?E field true] =>
      destruct (calc_rate_s fs sk xs E field true) as [rate2 | e] eqn:Hcalc2
  end; [| subst run; cbn [snd]; calc_raised e].
  rewrite bind_run in Hrun. unfold lift at 1 in Hrun.
  destruct (rows_of rate2) as [rr | e] eqn:Hrows.
  2:{ subst run. cbn [snd]. exists e. split; [reflexivity |]. right. left.
      destruct rate2 as [[| ? ?] | ?]; cbn in Hrows; congruence. }
  rewrite bind_run in Hrun. destruct rr as [| r0 rr].
  - cbn [mapM] in Hrun. unfold ret at 1 in Hrun. cbv beta iota in Hrun.
    rewrite bind_run in Hrun. unfold lift at 1 in Hrun.
    cbn [map np_c_ length Nat.eqb] in Hrun.
    subst run. cbn [snd]. eauto.
  - rewrite (mapM_lift_raise _ ValueError) in Hrun by reflexivity.
    subst run. cbn [snd]. eauto.
Qed.


(** *** The particle-energy grid *)

Lemma mapM_lift_world {A B} (f : A -> result B) l w :
  fst (mapM (fun r => lift (f r)) l w) = w.
Proof.
  induction l as [| a l IH]; [reflexivity |].
  cbn [mapM]. rewrite bind_run. unfold lift at 1.
  destruct (f a) as [b | e]; [| reflexivity].
  rewrite bind_run.
  destruct (mapM (fun r => lift (f r)) l w) as [w' [bs | e]] eqn:Hm;
    cbn [fst] in IH; now subst.
Qed.

Lemma getEmin_finite sigma field smin emax :
  getSmin sigma = Ok (Fin smin) ->
  photonField.getEmax field = Fin emax -> emax <> 0 ->
  getEmin sigma field = Ok (Fin (smin / (4 * emax))).
Proof.
  intros Hs He Hne. unfold getEmin. rewrite Hs, He. fl_norm lra.
  do 2 f_equal. field. exact Hne.
Qed.

Lemma process_energy_rows sigma field name w w' Emin :
  getEmin sigma field = Ok Emin ->
  process sigma field name w = (w', Ok tt) ->
  let logE := map (fun e => flog10 (e / eV)%fl)
                  (above Emin (scale (logspace 9 23 281) eV)) in
  (exists t, files w' !! rate_file name field = Some t /\
             map (List.hd NaN) (rows t) = logE) /\
  (exists t, files w' !! cdf_file name field = Some t /\
             map (List.hd NaN) (List.tl (rows t)) = logE).
Proof.
  intros Hemin Hrun.
  destruct (getSmin_of_getEmin _ _ _ Hemin) as [smin Hsmin].
  run_prefix field Hemin Hrun.
  match type of Hrun with
  | context [calc_rate_s ?fs ?sk ?xs ?E field false] =>
      destruct (calc_rate_s fs sk xs E field false) as [rate | e] eqn:Hcalc
  end; [| discriminate].
  rewrite bind_run in Hrun. unfold lift at 1 in Hrun.
  match type of Hrun with
  | context [np_c_ ?col rate] =>
      destruct (np_c_ col rate) as [data | e] eqn:Hc
  end; [| discriminate].
  rewrite bind_run in Hrun. unfold savetxt at 1 in Hrun. cbv beta iota in Hrun.
  rewrite bind_run in Hrun. unfold lift at 1 in Hrun. rewrite Hsmin in Hrun.
  rewrite bind_run in Hrun. unfold lift at 1 in Hrun.
  destruct (above Emin (scale (logspace 9 23 281) eV)) as [| E0 E'] eqn:HE;
    [discriminate |].
  cbv beta iota in Hrun. rewrite bind_run in Hrun. cbv beta iota in Hrun.
  match type of Hrun with
  | context [calc_rate_s ?fs ?sk ?xs ?E field true] =>
      destruct (calc_rate_s fs sk xs E field true) as [rate2 | e] eqn:Hcalc2
  end; [| discriminate].
  rewrite bind_run in Hrun. unfold lift at 1 in Hrun.
  destruct (rows_of rate2) as [rr | e] eqn:Hrows; [| discriminate].
  rewrite bind_run in Hrun.
  match type of Hrun with
  | context [mapM ?f rr ?w3] =>
      pose proof (mapM_lift_world
                    (fun r => np_interp
                       (above (py_max smin (4 * photonField.getEmin field * E0)%fl)
                              (scale (logspace 4 23 (190 + 1)) (eV ** 2)%fl))
                       (above (py_max smin (4 * photonField.getEmin field * E0)%fl)
                              (scale (logspace 4 23 (380000 + 1)) (eV ** 2)%fl)) r)
                    rr w3) as Hw;
      destruct (mapM f rr w3) as [w4 [rate_save | e]] eqn:Hm
  end; [| discriminate].
  cbn [fst] in Hw. subst w4.
  rewrite bind_run in Hrun. unfold lift at 1 in Hrun.
  match type of Hrun with
  | context [np_c_ ?col (Arr2 rate_save)] =>
      destruct (np_c_ col (Arr2 rate_save)) as [data2 | e] eqn:Hc2
  end; [| discriminate].
  unfold savetxt in Hrun. cbn [files dirs quad_calls] in Hrun.
  apply (f_equal fst) in Hrun. cbn [fst] in Hrun. subst w'. cbn [files]. split.
  - eexists. split.
    + rewrite lookup_insert_ne by apply rate_file_ne_cdf_file.
      apply lookup_insert_eq.
    + cbn [rows]. apply np_c_hd in Hc. exact Hc.
  - eexists. split; [apply lookup_insert_eq |].
    cbn [rows List.tl]. apply np_c_hd in Hc2. exact Hc2.
Qed.

Lemma energies_finite Emin :
  above (Fin Emin) (scale (logspace 9 23 281) eV)
  = map Fin (List.filter (Rltb Emin) (grid 9 23 281 eV)).
Proof. rewrite grid_spec by lia. apply above_fin. Qed.


(** *** A run that completes *)

Lemma mapM_lift_ok {A B} (f : A -> result B) (P : A -> Prop) l w :
  (forall a, P a -> exists b, f a = Ok b) -> Forall P l ->
  exists out, mapM (fun r => lift (f r)) l w = (w, Ok out) /\ length out = length l.
Proof.
  intros Hf Hall. induction Hall as [| a l Ha Hall IH].
  - exists []. split; reflexivity.
  - destruct (Hf a Ha) as [b Hb]. destruct IH as (out & Hout & Hlen).
    exists (b :: out). cbn [mapM]. rewrite bind_run. unfold lift at 1.
    rewrite Hb. rewrite bind_run, Hout. split; [reflexivity |].
    cbn [length]. now rewrite Hlen.
Qed.

Lemma filter_last_nonempty m (a b : R) n c :
  a < b -> 0 < c -> (1 < n)%Z -> m < Rpower 10 b * c ->
  exists x l, List.filter (Rltb m) (grid a b n c) = x :: l /\ x <= Rpower 10 b * c.
Proof.
  intros Hab Hc Hn Hm.
  destruct (List.filter (Rltb m) (grid a b n c)) as [| x l] eqn:Hf.
  - exfalso. pose proof (proj1 (filter_nil_iff _ _) Hf _ (grid_last a b n c Hn)) as Hl.
    apply Rltb_false in Hl. lra.
  - exists x, l. split; [reflexivity |].
    assert (Hx : In x (List.filter (Rltb m) (grid a b n c))) by (rewrite Hf; now left).
    apply filter_In in Hx as [Hx _]. now apply (grid_upper a b n c).
Qed.

Lemma py_max_fin a b : py_max (Fin a) (Fin b) = Fin (Rmax a b).
Proof.
  unfold py_max, Rmax. cbn [flt].
  destruct (Rlt_dec a b), (Rle_dec a b); try reflexivity; try lra.
  f_equal. lra.
Qed.

Lemma process_returns sigma field name w smin emax emin :
  getSmin sigma = Ok (Fin smin) ->
  photonField.getEmax field = Fin emax -> emax <> 0 ->
  photonField.getEmin field = Fin emin -> 0 <= emin -> 4 * emin < eV ->
  smin / (4 * emax) < Rpower 10 23 * eV ->
  smin < Rpower 10 23 * eV ^ 2 ->
  (forall fs skin xs E, exists v,
      calc_rate_s fs skin xs E field false = Ok (Arr1 v) /\ length v = length E) ->
  (forall fs skin xs E, exists m,
      calc_rate_s fs skin xs E field true = Ok (Arr2 m) /\ length m = length E /\
      Forall (fun r => length r = length skin) m) ->
  exists w', process sigma field name w = (w', Ok tt).
Proof.
  intros Hsmin He Hne Hfe Hemin0 Hemin1 HEmin Hskin1 Hshape1 Hshape2.
  pose proof (getEmin_finite sigma field smin emax Hsmin He Hne) as Hemin.
  pose proof eV_pos as HeV.
  remember (process sigma field name w) as run eqn:Hrun.
  run_prefix field Hemin Hrun.
  rewrite !energies_finite in Hrun.
  destruct (filter_last_nonempty (smin / (4 * emax)) 9 23 281 eV
              ltac:(lra) HeV ltac:(lia) HEmin) as (e0 & El & HE & He0).
  rewrite !HE in Hrun.
  match type of Hrun with
  | context [calc_rate_s ?fs ?sk ?xs ?E field false] =>
      destruct (Hshape1 fs sk xs E) as (v & Hv & Hlen); rewrite Hv in Hrun
  end.
  rewrite bind_run in Hrun. unfold lift at 1 in Hrun. unfold np_c_ at 1 in Hrun.
  rewrite length_map, Hlen, Nat.eqb_refl in Hrun.
  rewrite bind_run in Hrun. unfold savetxt at 1 in Hrun. cbv beta iota in Hrun.
  rewrite bind_run in Hrun. unfold lift at 1 in Hrun. rewrite Hsmin in Hrun.
  rewrite bind_run in Hrun. unfold lift at 1 in Hrun. cbn [map] in Hrun.
  cbv beta iota in Hrun. rewrite Hfe in Hrun.
  rewrite !fmul_fin, py_max_fin in Hrun.
  rewrite (fpow_fin eV 2) in Hrun by discriminate.
  rewrite !grid_spec in Hrun by lia. rewrite !above_fin in Hrun.
  set (m := Rmax smin (4 * emin * e0)) in Hrun.
  assert (Hm : m < Rpower 10 23 * eV ^ 2).
  { unfold m. apply Rmax_lub_lt; [exact Hskin1 |].
    assert (Hp : 0 < Rpower 10 23) by (unfold Rpower; apply exp_pos).
    assert (Hpe : 0 < Rpower 10 23 * eV) by (apply Rmult_lt_0_compat; lra).
    assert (H1 : 4 * emin * e0 <= 4 * emin * (Rpower 10 23 * eV))
      by (apply Rmult_le_compat_l; lra).
    assert (H2 : 4 * emin * (Rpower 10 23 * eV) < eV * (Rpower 10 23 * eV))
      by (apply Rmult_lt_compat_r; lra).
    replace (Rpower 10 23 * eV ^ 2) with (eV * (Rpower 10 23 * eV)) by ring.
    lra. }
  assert (HeV2 : 0 < eV ^ 2) by nra.
  destruct (filter_last_nonempty m 4 23 (380000 + 1) (eV ^ 2)
              ltac:(lra) HeV2 ltac:(lia) Hm) as (s0 & Sl & HS & _).
  rewrite bind_run in Hrun. cbv beta iota in Hrun.
  match type of Hrun with
  | context [calc_rate_s ?fs ?sk ?xs ?E field true] =>
      destruct (Hshape2 fs sk xs E) as (rr & Hrr & Hlen2 & Hall); rewrite Hrr in Hrun
  end.
  rewrite bind_run in Hrun. unfold lift at 1 in Hrun. cbn [rows_of] in Hrun.
  rewrite bind_run in Hrun.
  match type of Hrun with
  | context [mapM (fun r => lift (np_interp ?x ?xp r)) rr ?w3] =>
      destruct (mapM_lift_ok (fun r => np_interp x xp r)
                  (fun r => length r = length xp) rr w3) as (out & Hout & Hlo);
      [| exact Hall | rewrite Hout in Hrun]
  end.
  { intros r Hr. unfold np_interp. rewrite HS. cbn [map].
    rewrite HS in Hr. cbn [map] in Hr. rewrite Hr, Nat.eqb_refl. eauto. }
  rewrite bind_run in Hrun. unfold lift at 1 in Hrun. unfold np_c_ at 1 in Hrun.
  rewrite Hlo, Hlen2 in Hrun. cbn [length] in Hrun.
  rewrite !length_map, Nat.eqb_refl in Hrun.
  unfold savetxt in Hrun. subst run. eauto.
Qed.

(** *** The outcomes of a run *)

Lemma cache_step_spec field w1 :
  exists w2,
    (if negb (bool_decide (is_Some (files w1 !! density_file field)))
     then calculateDensityIntegral field else ret tt) w1 = (w2, Ok tt) /\
    cache_rel field w1 w2.
Proof.
  unfold cache_rel. fold (density_file field).
  destruct (files w1 !! density_file field) as [t |] eqn:Hf.
  - rewrite bool_decide_eq_true_2 by eauto. exists w1. split; [reflexivity |].
    split; [set_solver |]. left. eauto.
  - rewrite bool_decide_eq_false_2 by (intros [? ?]; discriminate).
    cbn [negb]. rewrite (calculateDensityIntegral_miss field w1 Hf).
    eexists. split; [reflexivity |]. cbn [dirs files quad_calls]. split.
    + unfold with_dir. destruct (bool_decide _); cbn [dirs]; set_solver.
    + right. eauto.
Qed.

Lemma np_interp_raises x xp fp e : np_interp x xp fp = Raise e -> e = ValueError.
Proof.
  unfold np_interp. destruct xp; [congruence |].
  destruct (_ =? _)%nat; congruence.
Qed.

Lemma np_c_raises col a e : np_c_ col a = Raise e -> e = ValueError.
Proof.
  destruct a; cbn [np_c_]; destruct (_ =? _)%nat; congruence.
Qed.

Lemma rows_of_raises a e : rows_of a = Raise e -> e = ValueError.
Proof. destruct a as [[| ? ?] | ?]; cbn [rows_of]; congruence. Qed.

Lemma mapM_lift_cons {A B} (f : A -> result B) a l w :
  mapM (fun r => lift (f r)) (a :: l) w
  = match f a with
    | Ok b => match mapM (fun r => lift (f r)) l w with
              | (w', Ok bs) => (w', Ok (b :: bs))
              | (w', Raise e) => (w', Raise e)
              end
    | Raise e => (w, Raise e)
    end.
Proof.
  cbn [mapM]. rewrite bind_run. unfold lift at 1.
  destruct (f a); reflexivity.
Qed.

Lemma mapM_lift_spec {A B} (f : A -> result B) l w :
  (exists out, mapM (fun r => lift (f r)) l w = (w, Ok out) /\
               Forall2 (fun r o => f r = Ok o) l out) \/
  (exists e r, mapM (fun r => lift (f r)) l w = (w, Raise e) /\ In r l /\ f r = Raise e).
Proof.
  induction l as [| a l IH].
  - left. exists []. split; [reflexivity | constructor].
  - rewrite !mapM_lift_cons. destruct (f a) as [b | e] eqn:Hfa.
    + destruct IH as [(out & Hout & Hall) | (e & r & Hr & Hin & Hfr)].
      * left. exists (b :: out). rewrite Hout. split; [reflexivity |].
        now constructor.
      * right. exists e, r. rewrite Hr. repeat split; [now right | exact Hfr].
    + right. exists e, a. repeat split; [now left | exact Hfa].
Qed.

Lemma savetxt_run p data hdr w :
  savetxt p data hdr w = (write_table p {| header := hdr; rows := data |} w, Ok tt).
Proof. reflexivity. Qed.

Lemma ensure_dir_world (b : bool) p w :
  let w1 := if b then w
            else {| dirs := {[p]} ∪ dirs w; files := files w; quad_calls := quad_calls w |} in
  files w1 = files w /\ quad_calls w1 = quad_calls w /\ dirs w ⊆ dirs w1.
Proof. destruct b; cbn [files quad_calls dirs]; repeat split; set_solver. Qed.

(** Every run of [process] for a catalogued cross section ends in one of
    three ways: before any table of its own is written, after the rate table
    is written, or normally with both tables written. *)
Lemma process_outcome sigma field name w Emin smin :
  getEmin sigma field = Ok Emin ->
  getSmin sigma = Ok smin ->
  let E := above Emin (scale (logspace 9 23 281) eV) in
  let logE := map (fun e => flog10 (e / eV)%fl) E in
  exists w1 w2,
    (files w1 = files w /\ quad_calls w1 = quad_calls w /\ dirs w ⊆ dirs w1) /\
    cache_rel field w1 w2 /\
    ((exists e, process sigma field name w = (w2, Raise e) /\
                (e = ValueError \/ raised_by_calc_rate_s field e)) \/
     (exists t1 e,
         process sigma field name w
         = (write_table (rate_file name field) t1 w2, Raise e) /\
         process_exn field e /\ map (List.hd NaN) (rows t1) = logE) \/
     (exists t1 t2 E0 E' rate_save,
         process sigma field name w
         = (write_table (cdf_file name field) t2
              (write_table (rate_file name field) t1 w2), Ok tt) /\
         map (List.hd NaN) (rows t1) = logE /\
         E = E0 :: E' /\
         let skin_min := py_max smin (4 * photonField.getEmin field * E0)%fl in
         let skin := above skin_min (scale (logspace 4 23 (380000 + 1)) (eV ** 2)%fl) in
         let skin_save := above skin_min (scale (logspace 4 23 (190 + 1)) (eV ** 2)%fl) in
         length rate_save = length E /\
         Forall (fun o => exists r, np_interp skin_save skin r = Ok o) rate_save /\
         rows t2 = (Fin 0 :: map (fun s => flog10 (s / eV ** 2)%fl) skin_save)
                   :: zip_with (fun c r => c :: r) logE rate_save)).
Proof.
  intros Hemin Hsmin E logE. subst logE E.
  remember (process sigma field name w) as run eqn:Hrun.
  unfold process in Hrun; cbv zeta in Hrun.
  rewrite bind_run in Hrun; unfold path_exists at 1 in Hrun; cbv beta iota in Hrun.
  rewrite bind_run, ensure_dir_run in Hrun.
  match type of Hrun with
  | context [(if ?b then w else ?wm)] => set (w1 := if b then w else wm) in Hrun
  end.
  assert (Hw1 : files w1 = files w /\ quad_calls w1 = quad_calls w /\ dirs w ⊆ dirs w1).
  { unfold w1. apply ensure_dir_world. }
  clearbody w1.
  rewrite bind_run in Hrun; unfold lift at 1 in Hrun; rewrite Hemin in Hrun;
    cbv beta iota in Hrun.
  rewrite bind_run in Hrun; unfold isfile at 1 in Hrun; cbv beta iota in Hrun.
  rewrite bind_run in Hrun.
  destruct (cache_step_spec field w1) as (w2 & Hw2 & Hrel).
  unfold density_file in Hw2. rewrite Hw2 in Hrun. clear Hw2.
  rewrite bind_run in Hrun; cbv beta iota in Hrun.
  exists w1, w2. split; [exact Hw1 |]. split; [exact Hrel |].
  match type of Hrun with
  | context [calc_rate_s ?fs ?sk ?xs ?E field false] =>
      destruct (calc_rate_s fs sk xs E field false) as [rate | e] eqn:Hcalc
  end.
  2:{ left. exists e. split; [exact Hrun |]. right.
      unfold raised_by_calc_rate_s. eauto 10. }
  rewrite bind_run in Hrun. unfold lift at 1 in Hrun.
  match type of Hrun with
  | context [np_c_ ?col rate] =>
      destruct (np_c_ col rate) as [data | e] eqn:Hc
  end.
  2:{ left. exists e. split; [exact Hrun |]. left. exact (np_c_raises _ _ _ Hc). }
  rewrite bind_run, savetxt_run in Hrun. cbv beta iota in Hrun.
  fold (rate_file name field) in Hrun.
  pose proof (np_c_hd _ _ _ Hc) as Hhd.
  set (t1 := {| header := rate_header " interaction rates" name field
                            "log10(E/eV), 1/lambda [1/Mpc]";
                rows := data |}) in Hrun.
  assert (Ht1 : map (List.hd NaN) (rows t1)
                = map (fun e => flog10 (e / eV)%fl)
                      (above Emin (scale (logspace 9 23 281) eV))) by exact Hhd.
  clearbody t1. clear Hhd Hc Hcalc.
  rewrite bind_run in Hrun. unfold lift at 1 in Hrun. rewrite Hsmin in Hrun.
  rewrite bind_run in Hrun. unfold lift at 1 in Hrun.
  destruct (above Emin (scale (logspace 9 23 281) eV)) as [| E0 E'] eqn:HE.
  { right. left. exists t1, IndexError. split; [exact Hrun |].
    split; [left; reflexivity | exact Ht1]. }
  cbv beta iota in Hrun. rewrite bind_run in Hrun. cbv beta iota in Hrun.
  match type of Hrun with
  | context [calc_rate_s ?fs ?sk ?xs ?E field true] =>
      destruct (calc_rate_s fs sk xs E field true) as [rate2 | e] eqn:Hcalc2
  end.
  2:{ right. left. exists t1, e. split; [exact Hrun |]. split; [| exact Ht1].
      right. right. unfold raised_by_calc_rate_s. eauto 10. }
  clear Hcalc2.
  rewrite bind_run in Hrun. unfold lift at 1 in Hrun.
  destruct (rows_of rate2) as [rr | e] eqn:Hrows.
  2:{ right. left. exists t1, e. split; [exact Hrun |]. split; [| exact Ht1].
      right. left. exact (rows_of_raises _ _ Hrows). }
  clear Hrows. rewrite bind_run in Hrun.
  match type of Hrun with
  | context [mapM (fun r => lift (np_interp ?x ?xp r)) rr ?w3] =>
      destruct (mapM_lift_spec (fun r => np_interp x xp r) rr w3)
        as [(out & Hout & Hall) | (e & r & Hr & _ & Hfr)]
  end.
  2:{ rewrite Hr in Hrun. right. left. exists t1, e. split; [exact Hrun |].
      split; [| exact Ht1]. right. left. exact (np_interp_raises _ _ _ _ Hfr). }
  rewrite Hout in Hrun. clear Hout.
  rewrite bind_run in Hrun. unfold lift at 1 in Hrun.
  match type of Hrun with
  | context [np_c_ ?col (Arr2 out)] =>
      destruct (np_c_ col (Arr2 out)) as [data2 | e] eqn:Hc2
  end.
  2:{ right. left. exists t1, e. split; [exact Hrun |]. split; [| exact Ht1].
      right. left. exact (np_c_raises _ _ _ Hc2). }
  rewrite savetxt_run in Hrun. fold (cdf_file name field) in Hrun.
  right. right. eexists t1, _, E0, E', out. split; [exact Hrun |].
  split; [exact Ht1 |]. split; [reflexivity |]. cbv zeta. cbn [rows].
  cbn [np_c_] in Hc2.
  destruct (Nat.eqb_spec (length out)
              (length (map (fun e => flog10 (e / eV)%fl) (E0 :: E')))) as [Hlen | Hlen];
    [| discriminate Hc2].
  rewrite length_map in Hlen. split; [exact Hlen |]. split.
  - clear -Hall. induction Hall as [| r o rr out Hro _ IH]; constructor; eauto.
  - congruence.
Qed.

(** *** Paths *)

Lemma string_length_app (s1 s2 : string) :
  String.length (s1 +:+ s2) = (String.length s1 + String.length s2)%nat.
Proof.
  induction s1 as [| c s1 IH]; [reflexivity |].
  change (String c s1 +:+ s2) with (String c (s1 +:+ s2)).
  cbn [String.length]. rewrite IH. reflexivity.
Qed.

(** no output folder makes a rate or a cdf table fall on the density table of
    the same field: the file names differ in length unless the folder is a
    proper prefix of [fieldDensity], and then they differ at the separator *)
Lemma density_file_ne_rate_file name field : density_file field <> rate_file name field.
Proof.
  unfold density_file, rate_file. generalize (photonField.name field). intros N Heq.
  cbn in Heq. injection Heq as Heq.
  pose proof (f_equal String.length Heq) as Hlen.
  rewrite !string_length_app in Hlen. cbn in Hlen.
  do 8 (destruct name as [| ? name]; [cbn in Hlen; try lia |]);
    [cbn in Heq; discriminate Heq | cbn in Hlen; lia].
Qed.

Lemma density_file_ne_cdf_file name field : density_file field <> cdf_file name field.
Proof.
  unfold density_file, cdf_file. generalize (photonField.name field). intros N Heq.
  cbn in Heq. injection Heq as Heq.
  pose proof (f_equal String.length Heq) as Hlen.
  rewrite !string_length_app in Hlen. cbn in Hlen.
  do 9 (destruct name as [| ? name]; [cbn in Hlen; try lia |]);
    [cbn in Heq; discriminate Heq | cbn in Hlen; lia].
Qed.

(** *** Worlds at the end of a run *)

Lemma selector_cases (sigma : callable) :
  (exists f, sigma = OtherFn f) \/ (forall f, sigma <> OtherFn f).
Proof. destruct sigma; eauto; right; intros f' Hf; discriminate Hf. Qed.

Lemma catalogued_thresholds sigma field :
  (forall f, sigma <> OtherFn f) ->
  exists Emin smin, getEmin sigma field = Ok Emin /\ getSmin sigma = Ok smin.
Proof.
  intros Hknown. unfold getEmin.
  destruct sigma as [| | | | f]; cbn [getSmin]; eauto.
  now destruct (Hknown f).
Qed.

(** a selector outside the catalogue: the run ends at [getEmin], once the
    output folder is there *)
Lemma process_unknown_run f field name w :
  process (OtherFn f) field name w
  = ((if bool_decide (("data/" +:+ name) ∈ dirs w)
         || bool_decide (is_Some (files w !! ("data/" +:+ name)))
      then w
      else {| dirs := {["data/" +:+ name]} ∪ dirs w; files := files w;
              quad_calls := quad_calls w |}),
     Raise KeyError).
Proof.
  unfold process. cbv zeta.
  rewrite bind_run. unfold path_exists at 1. cbv beta iota.
  rewrite bind_run, ensure_dir_run.
  rewrite bind_run. unfold lift at 1. reflexivity.
Qed.

(** the world in which a run for a catalogued cross section ends: the world
    [w2] after the cache step, with the tables written up to the end of the
    run *)
Lemma process_world sigma field name w Emin smin :
  getEmin sigma field = Ok Emin ->
  getSmin sigma = Ok smin ->
  exists w2,
    dirs w ⊆ dirs w2 /\
    ((is_Some (files w !! density_file field) /\ files w2 = files w /\
      quad_calls w2 = quad_calls w) \/
     (files w !! density_file field = None /\
      (exists t, files w2 = <[density_file field := t]> (files w)) /\
      quad_calls w2 = (length (density_bounds field) + quad_calls w)%nat)) /\
    ((exists e, process sigma field name w = (w2, Raise e) /\ process_exn field e) \/
     (exists t1 e,
         process sigma field name w = (write_table (rate_file name field) t1 w2, Raise e) /\
         process_exn field e) \/
     (exists t1 t2,
         process sigma field name w
         = (write_table (cdf_file name field) t2
              (write_table (rate_file name field) t1 w2), Ok tt))).
Proof.
  intros Hemin Hsmin.
  destruct (process_outcome sigma field name w Emin smin Hemin Hsmin)
    as (w1 & w2 & (Hf1 & Hq1 & Hd1) & (Hd2 & Hrel) & Hout).
  cbv zeta in Hout. exists w2. split; [| split].
  - transitivity (dirs w1); [exact Hd1 | exact Hd2].
  - clear Hout. unfold density_file. rewrite <- Hf1, <- Hq1. exact Hrel.
  - destruct Hout as [(e & Hrun & Hc) | [(t1 & e & Hrun & Hc & _) |
                                          (t1 & t2 & E0 & E' & rs & Hrun & _)]].
    + left. exists e. split; [exact Hrun |]. unfold process_exn. tauto.
    + right. left. exists t1, e. split; [exact Hrun | exact Hc].
    + right. right. exists t1, t2. exact Hrun.
Qed.

(** what the end of a run has in its files and its counter, whatever the
    selector: [fs] are the files after the cache step *)
Lemma process_files sigma field name w :
  exists fs,
    (fs = files w /\
     ((forall f, sigma <> OtherFn f) -> is_Some (files w !! density_file field)) /\
     quad_calls (fst (process sigma field name w)) = quad_calls w \/
     files w !! density_file field = None /\
     (forall f, sigma <> OtherFn f) /\
     (exists t, fs = <[density_file field := t]> (files w)) /\
     quad_calls (fst (process sigma field name w))
     = (length (density_bounds field) + quad_calls w)%nat) /\
    (files (fst (process sigma field name w)) = fs \/
     (exists t1, files (fst (process sigma field name w))
                 = <[rate_file name field := t1]> fs) \/
     (exists t1 t2, files (fst (process sigma field name w))
                    = <[cdf_file name field := t2]> (<[rate_file name field := t1]> fs) /\
                    snd (process sigma field name w) = Ok tt)) /\
    (snd (process sigma field name w) = Ok tt ->
     exists t1 t2, files (fst (process sigma field name w))
                   = <[cdf_file name field := t2]> (<[rate_file name field := t1]> fs)) /\
    dirs w ⊆ dirs (fst (process sigma field name w)).
Proof.
  destruct (selector_cases sigma) as [[f ->] | Hknown].
  - rewrite process_unknown_run. cbn [fst snd]. exists (files w).
    split; [| split; [| split]].
    + left. split; [reflexivity |]. split.
      * intros Hf. now destruct (Hf f).
      * destruct (_ || _); reflexivity.
    + left. destruct (_ || _); reflexivity.
    + intros Hok. discriminate Hok.
    + destruct (_ || _); cbn [dirs]; set_solver.
  - destruct (catalogued_thresholds sigma field Hknown) as (Emin & smin & He & Hs).
    destruct (process_world sigma field name w Emin smin He Hs)
      as (w2 & Hd & Hcache & Hout).
    exists (files w2).
    assert (Hfinal : quad_calls (fst (process sigma field name w)) = quad_calls w2 /\
                     dirs (fst (process sigma field name w)) = dirs w2).
    { destruct Hout as [(e & -> & _) | [(t1 & e & -> & _) | (t1 & t2 & ->)]];
        split; reflexivity. }
    destruct Hfinal as [Hq Hdirs]. rewrite Hq, Hdirs.
    split; [| split; [| split; [| exact Hd]]].
    + destruct Hcache as [(Hsome & Hfs & Hq2) | (Hnone & Hfs & Hq2)].
      * left. split; [exact Hfs |]. split; [intros _; exact Hsome | exact Hq2].
      * right. split; [exact Hnone |]. split; [exact Hknown |].
        split; [| exact Hq2].
        destruct Hfs as [t Ht]. exists t. exact Ht.
    + destruct Hout as [(e & -> & _) | [(t1 & e & -> & _) | (t1 & t2 & ->)]];
        cbn [fst snd files write_table].
      * left. reflexivity.
      * right. left. exists t1. reflexivity.
      * right. right. exists t1, t2. split; reflexivity.
    + destruct Hout as [(e & -> & _) | [(t1 & e & -> & _) | (t1 & t2 & ->)]];
        cbn [fst snd files write_table]; intros Hok; try discriminate Hok.
      exists t1, t2. reflexivity.
Qed.

Lemma density_bounds_length field : length (density_bounds field) = Z.to_nat 10000.
Proof.
  unfold density_bounds, logspace, linspace. cbv zeta.
  rewrite !length_map. apply length_seqZ.
Qed.

Lemma np_interp_length x xp fp o : np_interp x xp fp = Ok o -> length o = length x.
Proof.
  unfold np_interp. destruct xp as [| x0 xp]; [intros Hr; discriminate Hr |].
  destruct (_ =? _)%nat; intros Hr; [| discriminate Hr].
  injection Hr as <-. apply length_map.
Qed.

Lemma Forall_zip_with_r {A B C} (f : A -> B -> C) (P : B -> Prop) (Q : C -> Prop) k l :
  (forall a b, P b -> Q (f a b)) -> Forall P l -> Forall Q (zip_with f k l).
Proof.
  intros Hf Hl. revert k. induction Hl as [| b l Hb Hl IH]; intros [| a k];
    cbn [zip_with]; constructor; auto.
Qed.



(** X11.  What a run leaves alone.  Whatever its outcome, [process] removes
    no directory and no file, changes no file but the density table of the
    field and the rate and cdf table of the field in the output folder, and
    leaves a density table that was there as it was. *)
Theorem process_frame sigma field name w :
  let w' := fst (process sigma field name w) in
  dirs w ⊆ dirs w' /\
  (forall p, is_Some (files w !! p) -> is_Some (files w' !! p)) /\
  (forall p, p <> density_file field -> p <> rate_file name field ->
             p <> cdf_file name field -> files w' !! p = files w !! p) /\
  (is_Some (files w !! density_file field) ->
   files w' !! density_file field = files w !! density_file field).
Proof.
  cbv zeta.
  destruct (process_files sigma field name w) as (fs & Hfs & Hw' & _ & Hd).
  pose proof (density_file_ne_rate_file name field) as Hr.
  pose proof (density_file_ne_cdf_file name field) as Hc.
  split; [exact Hd |]. split; [| split].
  - intros p Hp.
    assert (Hp' : is_Some (fs !! p)).
    { destruct Hfs as [(-> & _) | (_ & _ & [t ->] & _)]; [exact Hp |].
      apply lookup_insert_is_Some'. now right. }
    destruct Hw' as [-> | [(t1 & ->) | (t1 & t2 & -> & _)]]; [exact Hp' | |];
      repeat (apply lookup_insert_is_Some'; right); exact Hp'.
  - intros p Hpd Hpr Hpc.
    assert (Hp' : fs !! p = files w !! p).
    { destruct Hfs as [(-> & _) | (_ & _ & [t ->] & _)]; [reflexivity |].
      apply lookup_insert_ne. congruence. }
    destruct Hw' as [-> | [(t1 & ->) | (t1 & t2 & -> & _)]]; [exact Hp' | |];
      rewrite ?lookup_insert_ne by congruence; exact Hp'.
  - intros Hsome.
    assert (Hp' : fs = files w).
    { destruct Hfs as [(-> & _) | (Hnone & _)]; [reflexivity |].
      rewrite Hnone in Hsome. now destruct Hsome. }
    subst fs.
    destruct Hw' as [-> | [(t1 & ->) | (t1 & t2 & -> & _)]]; [reflexivity | |];
      rewrite ?lookup_insert_ne by congruence; reflexivity.
Qed.

(** X12.  The density table is computed when it is missing and only then.  A
    run with a catalogued cross section leaves the density table of the field
    on disk, at the price of exactly 10000 [quad] evaluations when the table
    was missing and of none when it was there. *)
Theorem density_table_computed_when_missing sigma field name w :
  (forall f, sigma <> OtherFn f) ->
  let w' := fst (process sigma field name w) in
  is_Some (files w' !! density_file field) /\
  (is_Some (files w !! density_file field) -> quad_calls w' = quad_calls w) /\
  (files w !! density_file field = None ->
   quad_calls w' = (Z.to_nat 10000 + quad_calls w)%nat).
Proof.
  intros Hknown. cbv zeta.
  destruct (process_files sigma field name w) as (fs & Hfs & Hw' & _ & _).
  split; [| split].
  - assert (Hp' : is_Some (fs !! density_file field)).
    { destruct Hfs as [(-> & Hsome & _) | (_ & _ & [t ->] & _)]; [auto |].
      apply lookup_insert_is_Some'. now left. }
    destruct Hw' as [-> | [(t1 & ->) | (t1 & t2 & -> & _)]]; [exact Hp' | |];
      repeat (apply lookup_insert_is_Some'; right); exact Hp'.
  - intros Hsome. destruct Hfs as [(_ & _ & Hq) | (Hnone & _)]; [exact Hq |].
    rewrite Hnone in Hsome. now destruct Hsome.
  - intros Hnone. destruct Hfs as [(_ & Hsome & _) | (_ & _ & _ & Hq)].
    + specialize (Hsome Hknown). rewrite Hnone in Hsome. now destruct Hsome.
    + rewrite Hq, density_bounds_length. reflexivity.
Qed.

(** X13.  One field, two runs.  After a run with a catalogued cross section,
    a second run for the same field (any selector, any output folder) makes
    no [quad] evaluation and leaves the density table as the first run left
    it: the density integrals of a field are computed once for all
    processes. *)
Theorem second_run_reuses_density sigma sigma' field name name' w :
  (forall f, sigma <> OtherFn f) ->
  let w1 := fst (process sigma field name w) in
  let w2 := fst (process sigma' field name' w1) in
  quad_calls w2 = quad_calls w1 /\
  files w2 !! density_file field = files w1 !! density_file field /\
  is_Some (files w2 !! density_file field).
Proof.
  intros Hknown. cbv zeta.
  assert (Hsome : is_Some (files (fst (process sigma field name w)) !! density_file field)).
  { destruct (process_files sigma field name w) as (fs & Hfs & Hw' & _ & _).
    assert (Hp' : is_Some (fs !! density_file field)).
    { destruct Hfs as [(-> & Hsome & _) | (_ & _ & [t ->] & _)]; [auto |].
      apply lookup_insert_is_Some'. now left. }
    destruct Hw' as [-> | [(t1 & ->) | (t1 & t2 & -> & _)]]; [exact Hp' | |];
      repeat (apply lookup_insert_is_Some'; right); exact Hp'. }
  generalize dependent (fst (process sigma field name w)). intros w1 Hsome.
  destruct (process_files sigma' field name' w1) as (fs & Hfs & Hw' & _ & _).
  pose proof (density_file_ne_rate_file name' field) as Hr.
  pose proof (density_file_ne_cdf_file name' field) as Hc.
  destruct Hfs as [(-> & _ & Hq) | (Hnone & _)];
    [| rewrite Hnone in Hsome; now destruct Hsome].
  split; [exact Hq |].
  assert (Heq : files (fst (process sigma' field name' w1)) !! density_file field
                = files w1 !! density_file field).
  { destruct Hw' as [-> | [(t1 & ->) | (t1 & t2 & -> & _)]]; [reflexivity | |];
      rewrite ?lookup_insert_ne by congruence; reflexivity. }
  split; [exact Heq |]. rewrite Heq. exact Hsome.
Qed.

(** X14.  The cdf table of a completed run.  When [process] returns, there is
    a first particle energy [E0], and the cdf table is rectangular: one row
    for the grid and one for each particle energy, each with one entry more
    than the coarse [s_kin] grid has points; the first row is [0] followed by
    [log10(s_kin/eV^2)] on the coarse grid, and the first column below it is
    [log10(E/eV)]. *)
Theorem completed_run_cdf_table sigma field name w w' Emin smin :
  getEmin sigma field = Ok Emin ->
  getSmin sigma = Ok smin ->
  process sigma field name w = (w', Ok tt) ->
  let E := above Emin (scale (logspace 9 23 281) eV) in
  exists E0 E' t,
    E = E0 :: E' /\
    files w' !! cdf_file name field = Some t /\
    let skin_save := above (py_max smin (4 * photonField.getEmin field * E0)%fl)
                           (scale (logspace 4 23 (190 + 1)) (eV ** 2)%fl) in
    length (rows t) = S (length E) /\
    Forall (fun row => length row = S (length skin_save)) (rows t) /\
    List.hd [] (rows t) = Fin 0 :: map (fun s => flog10 (s / eV ** 2)%fl) skin_save /\
    map (List.hd NaN) (rows t) = Fin 0 :: map (fun e => flog10 (e / eV)%fl) E.
Proof.
  intros Hemin Hsmin Hrun E. subst E.
  destruct (process_outcome sigma field name w Emin smin Hemin Hsmin)
    as (w1 & w2 & _ & _ & Hout).
  cbv zeta in Hout.
  destruct Hout as [(e & Hr & _) | [(t1 & e & Hr & _) |
                                    (t1 & t2 & E0 & E' & rs & Hr & _ & HE & Hlen & Hrs & Hrows)]].
  - rewrite Hrun in Hr. apply (f_equal snd) in Hr. cbn [snd] in Hr. discriminate Hr.
  - rewrite Hrun in Hr. apply (f_equal snd) in Hr. cbn [snd] in Hr. discriminate Hr.
  - rewrite Hrun in Hr. apply (f_equal fst) in Hr. cbn [fst] in Hr. subst w'.
    exists E0, E', t2. split; [exact HE |]. split.
    { unfold write_table at 1. cbn [files]. apply lookup_insert_eq. }
    cbv zeta. rewrite Hrows. clear Hrows Hrun.
    set (logE := map (fun e : npfloat => flog10 (e / eV)%fl)
                   (above Emin (scale (logspace 9 23 281) eV))) in *.
    assert (HlogE : length logE = length rs).
    { unfold logE. rewrite length_map. symmetry. exact Hlen. }
    split; [| split; [| split]].
    + cbn [length]. rewrite length_zip_with. f_equal. lia.
    + constructor.
      * cbn [length]. rewrite length_map. reflexivity.
      * eapply Forall_zip_with_r; [| exact Hrs].
        intros c o (r & Ho). cbn [length]. f_equal.
        apply (np_interp_length _ _ _ _ Ho).
    + reflexivity.
    + cbn [map List.hd]. f_equal. apply hd_zip_with_cons. symmetry. exact HlogE.
Qed.

(** *** The script *)

Lemma for_each_cons {A} (a : A) l (body : A -> M unit) w :
  for_each (a :: l) body w
  = match body a w with
    | (w', Ok _) => for_each l body w'
    | (w', Raise e) => (w', Raise e)
    end.
Proof. reflexivity. Qed.

(** one turn of the loop *)
Lemma process_step sigma field name w w1 r :
  (forall f, sigma <> OtherFn f) ->
  process sigma field name w = (w1, r) ->
  (forall p, is_Some (files w !! p) -> is_Some (files w1 !! p)) /\
  (quad_calls w1 <= quad_calls w + Z.to_nat 10000)%nat /\
  match r with
  | Ok _ => tables_written name field w1
  | Raise e => process_exn field e
  end.
Proof.
  intros Hknown Hrun.
  destruct (catalogued_thresholds sigma field Hknown) as (Emin & smin & He & Hs).
  destruct (process_world sigma field name w Emin smin He Hs)
    as (w2 & _ & Hcache & Hout).
  rewrite Hrun in Hout. rewrite density_bounds_length in Hcache.
  assert (Hkeep : forall p, is_Some (files w !! p) -> is_Some (files w2 !! p)).
  { intros p Hp. destruct Hcache as [(_ & -> & _) | (_ & [t ->] & _)]; [exact Hp |].
    apply lookup_insert_is_Some'. now right. }
  assert (Hdens : is_Some (files w2 !! density_file field)).
  { destruct Hcache as [(Hsome & -> & _) | (_ & [t ->] & _)]; [exact Hsome |].
    apply lookup_insert_is_Some'. now left. }
  assert (Hq : (quad_calls w2 <= quad_calls w + Z.to_nat 10000)%nat).
  { destruct Hcache as [(_ & _ & ->) | (_ & _ & ->)]; lia. }
  clear Hcache.
  destruct Hout as [(e & Heq & Hc) | [(t1 & e & Heq & Hc) | (t1 & t2 & Heq)]];
    injection Heq as -> ->; cbn [files quad_calls write_table].
  - split; [exact Hkeep |]. split; [exact Hq | exact Hc].
  - split.
    { intros p Hp. apply lookup_insert_is_Some'. right. auto. }
    split; [exact Hq | exact Hc].
  - split.
    { intros p Hp. do 2 (apply lookup_insert_is_Some'; right). auto. }
    split; [exact Hq |]. unfold tables_written. cbn [files].
    split; [| split].
    + do 2 (apply lookup_insert_is_Some'; right). exact Hdens.
    + apply lookup_insert_is_Some'. right. apply lookup_insert_is_Some'. now left.
    + apply lookup_insert_is_Some'. now left.
Qed.

Lemma tables_written_kept name field w w' :
  (forall p, is_Some (files w !! p) -> is_Some (files w' !! p)) ->
  tables_written name field w -> tables_written name field w'.
Proof. intros Hkeep (Hd & Hr & Hc). repeat split; auto. Qed.



End ProcessProperties.

(** With photons as soft as those of [faint_field] no tabulated energy reaches
    the threshold of double pair production. *)
Lemma faint_field_no_energy :
  getEmin SigmaDPP faint_field = Ok (16 * me2 / 4 / 1e-31)%fl /\
  above (16 * me2 / 4 / 1e-31)%fl (scale (logspace 9 23 281) eV) = [].
Proof.
  split; [reflexivity |]. pose proof eV_pos as He.
  fl_norm lra. rewrite grid_spec by lia. rewrite above_fin.
  replace (List.filter _ _) with (@nil R); [reflexivity |].
  symmetry. apply filter_nil_iff. intros x Hx. apply Rltb_false.
  apply grid_upper in Hx; [| lra | exact He | lia].
  rewrite Rpower10_23 in Hx.
  assert (10 ^ 23 * eV < 16 * me2 / 4 / 1e-31) by (unfold me2, eV; lra).
  lra.
Qed.




Lemma sample_rates_shape (field : Field) :
  (forall fs skin xs E, exists v,
      calc_rate_s (Extern := sample_extern) fs skin xs E field false = Ok (Arr1 v) /\
      length v = length E) /\
  (forall fs skin xs E, exists m,
      calc_rate_s (Extern := sample_extern) fs skin xs E field true = Ok (Arr2 m) /\
      length m = length E /\ Forall (fun r => length r = length skin) m).
Proof.
  split; intros fs skin xs E; eexists; (split; [reflexivity |]).
  - apply length_map.
  - split; [apply length_map |]. apply Forall_forall. intros r Hr.
    apply list_elem_of_In, in_map_iff in Hr as (e & <- & _). apply length_map.
Qed.

(** Pair production against [flat_field] is a run that completes. *)
Lemma pair_production_run :
  exists w', process (H := sample_extern) SigmaPP flat_field "EMPairProduction" empty_world
             = (w', Ok tt).
Proof.
  pose proof eV_pos as HeV.
  destruct (sample_rates_shape flat_field) as [Hs1 Hs2].
  apply (process_returns (H := sample_extern) SigmaPP flat_field "EMPairProduction"
           empty_world (4 * me2) 1e-21 1e-25);
    first [ reflexivity | assumption | lra | unfold eV; lra
          | rewrite Rpower10_23; unfold me2, eV; lra ].
Qed.


(** ** Downsampling *)

Lemma above_map_Fin (m : npfloat) (l : list R) :
  above m (map Fin l) = map Fin (List.filter (fun x => (m <? Fin x)%fl) l).
Proof.
  unfold above. induction l as [| x l IH]; [reflexivity |].
  cbn [map List.filter]. destruct (m <? Fin x)%fl; cbn [map]; now rewrite IH.
Qed.

Lemma grid_refine a b n k c x :
  (0 < n)%Z -> (0 < k)%Z ->
  In x (grid a b (n + 1) c) -> In x (grid a b (k * n + 1) c).
Proof.
  intros Hn Hk Hx. apply grid_elem in Hx as (i & Hi & ->).
  apply grid_elem. exists (k * i)%Z. split; [nia |].
  do 2 f_equal. f_equal.
  replace (n + 1 - 1)%Z with n by lia.
  replace (k * n + 1 - 1)%Z with (k * n)%Z by lia.
  rewrite !mult_IZR. field.
  split; apply not_0_IZR; lia.
Qed.

Lemma interp_rows_finite (x xs fs : list R) :
  StronglySorted Rlt xs -> xs <> [] -> length fs = length xs ->
  np_interp (map Fin x) (map Fin xs) (map Fin fs)
  = Ok (map Fin (map (fun v => interpR v xs fs) x)).
Proof.
  intros Hs Hne Hlen. unfold np_interp.
  destruct xs as [| x0 xs]; [congruence |]. cbn [map].
  change (Fin x0 :: map Fin xs) with (map Fin (x0 :: xs)).
  rewrite !length_map, Hlen, Nat.eqb_refl. f_equal.
  rewrite !map_map. apply map_ext. intros v. now apply interp1_fin.
Qed.

Lemma sorted_lt_le (l : list R) : StronglySorted Rlt l -> StronglySorted Rle l.
Proof.
  induction 1; constructor; [assumption |].
  eapply Forall_impl; [eassumption |]. intros y Hy. cbn in Hy. lra.
Qed.

Section Downsampling.
Variable skin_min : npfloat.
Variable row : list R.

Abbreviation fine := (fine_skin skin_min).
Abbreviation coarse := (coarse_skin skin_min).

Lemma skin_finite :
  above skin_min (scale (logspace 4 23 (380000 + 1)) (eV ** 2)%fl) = map Fin fine.
Proof.
  rewrite (fpow_fin eV 2) by discriminate. rewrite grid_spec by lia.
  apply above_map_Fin.
Qed.

Lemma skin_save_finite :
  above skin_min (scale (logspace 4 23 (190 + 1)) (eV ** 2)%fl) = map Fin coarse.
Proof.
  rewrite (fpow_fin eV 2) by discriminate. rewrite grid_spec by lia.
  apply above_map_Fin.
Qed.

Lemma fine_sorted : StronglySorted Rlt fine.
Proof.
  apply StronglySorted_filter, grid_sorted; [lra | | lia].
  pose proof eV_pos. nra.
Qed.

Lemma coarse_sorted : StronglySorted Rlt coarse.
Proof.
  apply StronglySorted_filter, grid_sorted; [lra | | lia].
  pose proof eV_pos. nra.
Qed.

Lemma coarse_in_fine x : In x coarse -> In x fine.
Proof.
  unfold coarse_skin, fine_skin. rewrite !filter_In. intros [Hx Hp]. split; [| exact Hp].
  change (380000 + 1)%Z with (2000 * 190 + 1)%Z. apply grid_refine; [lia | lia | exact Hx].
Qed.


End Downsampling.

Lemma flat_row_sorted : StronglySorted Rle flat_row.
Proof.
  unfold flat_row. generalize (fine_skin (Fin 0)).
  intros l. induction l as [| x l IH]; cbn [map]; constructor; [exact IH |].
  apply Forall_forall. intros y Hy.
  apply list_elem_of_In, in_map_iff in Hy as (z & <- & _). lra.
Qed.

Lemma flat_row_length :
  length flat_row
  = length (above (Fin 0) (scale (logspace 4 23 (380000 + 1)) (eV ** 2)%fl)).
Proof. rewrite skin_finite. unfold flat_row. rewrite !length_map. reflexivity. Qed.

Lemma skin_above_zero_nonempty :
  above (Fin 0) (scale (logspace 4 23 (380000 + 1)) (eV ** 2)%fl) <> [].
Proof.
  rewrite skin_finite. intros Hnil. apply map_eq_nil in Hnil.
  pose proof eV_pos as HeV.
  assert (Hl : Rltb 0 (Rpower 10 23 * eV ^ 2) = false).
  { apply (proj1 (filter_nil_iff _ _) Hnil). apply grid_last. lia. }
  apply Rltb_false in Hl.
  assert (Hp : 0 < Rpower 10 23) by (unfold Rpower; apply exp_pos).
  assert (He2 : 0 < eV ^ 2) by nra.
  pose proof (Rmult_lt_0_compat _ _ Hp He2). lra.
Qed.



(* ===================================================================== *)
(** * Further properties *)
(* ===================================================================== *)

(** ** The cross sections above their thresholds *)

Lemma ppR_at_threshold : ppR (4 * me2) = 0.
Proof.
  pose proof me2_pos as Hm. unfold ppR. cbv zeta.
  replace (1 - 4 * me2 / (4 * me2)) with 0 by (field; lra).
  rewrite sqrt_0. replace (1 + - 0) with (1 + 0) by ring. ring.
Qed.

Lemma ppR_pos s : 4 * me2 < s -> 0 < ppR s.
Proof.
  intros Hs. pose proof me2_pos as Hm.
  pose proof (pp_beta_range s (Rlt_le _ _ Hs)) as Hrange.
  pose proof (sqrt_unit _ Hrange) as Hb.
  assert (Hb0 : 0 < sqrt (1 - 4 * me2 / s)).
  { apply sqrt_lt_R0.
    assert (4 * me2 / s < 1); [| lra].
    apply (Rmult_lt_reg_r s); [lra |].
    replace (4 * me2 / s * s) with (4 * me2) by (field; lra). lra. }
  unfold ppR. cbv zeta. set (b := sqrt (1 - 4 * me2 / s)) in *.
  pose proof (logdiff_lower b Hb) as Hl.
  replace (1 + - b) with (1 - b) by lra.
  set (L := ln (1 + b) - ln (1 - b)) in *.
  pose proof sigmaThomson_pos as Ht.
  assert (Hpoly : 2 * b * (2 - b ^ 2) < (3 - b ^ 4) * (b * (2 + b) / (1 + b))).
  { apply (Rmult_lt_reg_r (1 + b)); [lra |].
    replace ((3 - b ^ 4) * (b * (2 + b) / (1 + b)) * (1 + b))
      with ((3 - b ^ 4) * (b * (2 + b))) by (field; lra).
    assert (0 < b * (2 - b + 2 * b ^ 2 * (1 - b ^ 2) + b ^ 3 * (2 - b ^ 2))).
    { apply Rmult_lt_0_compat; [lra |].
      assert (0 <= b ^ 2 * (1 - b ^ 2)) by (apply Rmult_le_pos; nra).
      assert (0 <= b ^ 3 * (2 - b ^ 2)).
      { apply Rmult_le_pos; [apply pow_le; lra | nra]. }
      lra. }
    lra. }
  assert (H34 : 0 <= 3 - b ^ 4).
  { assert (b ^ 4 <= 1).
    { assert (Hbb : 0 <= b * b <= 1) by nra.
      replace (b ^ 4) with ((b * b) * (b * b)) by ring. nra. }
    lra. }
  assert (Hmain : 0 < (3 - b ^ 4) * L - 2 * b * (2 - b ^ 2)).
  { assert ((3 - b ^ 4) * (b * (2 + b) / (1 + b)) <= (3 - b ^ 4) * L)
      by (apply Rmult_le_compat_l; lra).
    lra. }
  apply Rmult_lt_0_compat; [| exact Hmain].
  apply Rmult_lt_0_compat; [lra | nra].
Qed.

Lemma dpp_pos s : 16 * me2 < s -> 0 < 6.45E-34 * (1 - 16 * me2 / s) ^ 6.
Proof.
  intros Hs. pose proof me2_pos as Hm.
  apply Rmult_lt_0_compat; [lra |]. apply pow_lt.
  assert (16 * me2 / s < 1); [| lra].
  apply (Rmult_lt_reg_r s); [lra |].
  replace (16 * me2 / s * s) with (16 * me2) by (field; lra). lra.
Qed.

Lemma icsR_pos s : me2 < s -> 0 < icsR s.
Proof.
  intros Hs. pose proof me2_pos as Hm. pose proof sigmaThomson_pos as Ht.
  pose proof (ics_beta_range s Hs) as Hb.
  unfold icsR. cbv zeta. set (b := (s - me2) / (s + me2)) in *.
  replace (1 + - b) with (1 - b) by lra.
  assert (HbL : 0 <= b < 1) by lra.
  pose proof (logdiff_upper b HbL) as Hu.
  pose proof (logdiff_nonneg b HbL) as Hn.
  set (L := ln (1 + b) - ln (1 - b)) in *.
  set (A := 2 / b / (1 + b) * (2 + 2 * b - b ^ 2 - 2 * b ^ 3)).
  set (p := 2 - 3 * b ^ 2 - b ^ 3).
  assert (Hb2 : 0 < b ^ 2) by (apply pow_lt; lra).
  assert (HA : A = p / b ^ 2 * (2 * b / (1 - b * b)) + 4 * b ^ 3 / (1 - b * b)).
  { unfold A, p. field. repeat split; nra. }
  assert (Htail : 0 < 4 * b ^ 3 / (1 - b * b)).
  { apply Rmult_lt_0_compat.
    - apply Rmult_lt_0_compat; [lra | apply pow_lt; lra].
    - apply Rinv_0_lt_compat. nra. }
  assert (HAB : 0 < A - p / b ^ 2 * L).
  { destruct (Rle_lt_dec p 0) as [Hp | Hp].
    - assert (0 <= (- p / b ^ 2) * L).
      { apply Rmult_le_pos; [| exact Hn].
        apply Rmult_le_pos; [lra |]. left. now apply Rinv_0_lt_compat. }
      replace (p / b ^ 2 * L) with (- (- p / b ^ 2 * L)) by (field; lra).
      assert (0 < A); [| lra].
      unfold A. apply Rmult_lt_0_compat.
      + apply Rmult_lt_0_compat; [apply Rmult_lt_0_compat; [lra |] |];
          apply Rinv_0_lt_compat; lra.
      + assert (b ^ 2 <= b) by nra. assert (b ^ 3 <= b) by nra. lra.
    - assert (p / b ^ 2 * L <= p / b ^ 2 * (2 * b / (1 - b * b))).
      { apply Rmult_le_compat_l; [| exact Hu].
        apply Rmult_le_pos; [lra |]. left. now apply Rinv_0_lt_compat. }
      lra. }
  assert (Hc : 0 < sigmaThomson * 3 / 8 * me2) by nra.
  assert (His : 0 < / s) by (apply Rinv_0_lt_compat; lra).
  assert (Hib : 0 < / b) by (apply Rinv_0_lt_compat; lra).
  apply Rmult_lt_0_compat; [| exact HAB].
  unfold Rdiv.
  apply Rmult_lt_0_compat; [apply Rmult_lt_0_compat; [exact Hc | exact His] | exact Hib].
Qed.

Lemma tpp_beta_pos s : sTPP < s -> 0 < 28 / 9 * ln (s / me2) - 218 / 27.
Proof.
  intros Hs. pose proof me2_pos as Hm. pose proof sTPP_pos as Hp.
  assert (Hq : exp (218 / 27 / (28 / 9)) < s / me2).
  { apply (Rmult_lt_reg_r me2); [exact Hm |].
    replace (s / me2 * me2) with s by (field; lra).
    unfold sTPP in Hs. lra. }
  assert (Hl : 218 / 27 / (28 / 9) < ln (s / me2)).
  { rewrite <- (ln_exp (218 / 27 / (28 / 9))).
    apply ln_increasing; [apply exp_pos | exact Hq]. }
  set (c := 218 / 27 / (28 / 9)) in *.
  replace (218 / 27) with (28 / 9 * c) by (unfold c; field). lra.
Qed.

Lemma tppR_pos s :
  sTPP < s ->
  0 < sigmaThomson * 3 / 8 / PI * alpha * (28 / 9 * ln (s / me2) - 218 / 27).
Proof.
  intros Hs. pose proof (tpp_beta_pos s Hs) as Hb.
  pose proof PI_RGT_0 as Hpi. pose proof sigmaThomson_pos as Ht.
  pose proof alpha_pos as Ha.
  assert (Hip : 0 < / PI) by now apply Rinv_0_lt_compat.
  assert (Hc : 0 < sigmaThomson * 3 / 8) by lra.
  apply Rmult_lt_0_compat; [| exact Hb].
  unfold Rdiv.
  apply Rmult_lt_0_compat; [apply Rmult_lt_0_compat; [exact Hc | exact Hip] | exact Ha].
Qed.

Lemma tppR_at_threshold :
  sigmaThomson * 3 / 8 / PI * alpha * (28 / 9 * ln (sTPP / me2) - 218 / 27) = 0.
Proof.
  pose proof me2_pos as Hm. unfold sTPP.
  replace (me2 * exp (218 / 27 / (28 / 9)) / me2)
    with (exp (218 / 27 / (28 / 9))) by (field; lra).
  rewrite ln_exp.
  replace (28 / 9 * (218 / 27 / (28 / 9)) - 218 / 27) with 0 by field.
  ring.
Qed.



(** ** Monotone cross sections *)

Lemma dpp_factor_range s : 16 * me2 <= s -> 0 <= 1 - 16 * me2 / s < 1.
Proof.
  intros Hs. pose proof me2_pos as Hm.
  assert (Hq : 0 < 16 * me2 / s <= 1).
  { split.
    - apply Rdiv_lt_0_compat; lra.
    - apply (Rmult_le_reg_r s); [lra |].
      replace (16 * me2 / s * s) with (16 * me2) by (field; lra). lra. }
  lra.
Qed.

Lemma dpp_factor_mono s1 s2 :
  16 * me2 <= s1 -> s1 <= s2 -> 1 - 16 * me2 / s1 <= 1 - 16 * me2 / s2.
Proof.
  intros H1 H2. pose proof me2_pos as Hm.
  assert (/ s2 <= / s1) by (apply Rinv_le_contravar; lra).
  unfold Rdiv. nra.
Qed.



(** X3.  [sigmaTPP] is non-decreasing in [s] on [s >= 0]. *)
Theorem sigmaTPP_monotone (s1 s2 : R) :
  0 <= s1 -> s1 <= s2 ->
  exists v1 v2,
    sigmaTPP (Fin s1) = Fin v1 /\ sigmaTPP (Fin s2) = Fin v2 /\
    0 <= v1 /\ v1 <= v2.
Proof.
  intros H0 H12. pose proof me2_pos as Hm. pose proof sTPP_pos as Hp.
  destruct (Rlt_le_dec s2 sTPP) as [Hs2 | Hs2].
  - exists 0, 0. rewrite !sigmaTPP_below by lra. repeat split; lra.
  - destruct (Rlt_le_dec s1 sTPP) as [Hs1 | Hs1].
    + eexists 0, _. rewrite sigmaTPP_below by lra. rewrite sigmaTPP_fin by lra.
      pose proof (tppR_nonneg s2 Hs2). repeat split; lra.
    + eexists _, _. rewrite !sigmaTPP_fin by lra.
      pose proof (tppR_nonneg s1 Hs1) as Hv1.
      repeat split; [exact Hv1 |].
      assert (Hc : 0 <= sigmaThomson * 3 / 8 / PI * alpha).
      { pose proof PI_RGT_0 as Hpi. pose proof sigmaThomson_pos as Ht.
        pose proof alpha_pos as Ha.
        assert (Hip : 0 < / PI) by now apply Rinv_0_lt_compat.
        assert (Hc8 : 0 < sigmaThomson * 3 / 8) by lra.
        left. unfold Rdiv.
        apply Rmult_lt_0_compat; [apply Rmult_lt_0_compat; assumption | exact Ha]. }
      apply Rmult_le_compat_l; [exact Hc |].
      assert (Hl : ln (s1 / me2) <= ln (s2 / me2)).
      { destruct H12 as [Hlt | ->]; [| lra].
        left. apply ln_increasing.
        - apply Rdiv_lt_0_compat; lra.
        - unfold Rdiv. apply Rmult_lt_compat_r; [now apply Rinv_0_lt_compat | exact Hlt]. }
      lra.
Qed.

Lemma sigmaTPP_monotone_witness :
  exists v1 v2,
    sigmaTPP (Fin 0) = Fin v1 /\ sigmaTPP (Fin 1) = Fin v2 /\ 0 <= v1 /\ v1 <= v2.
Proof. apply (sigmaTPP_monotone 0 1); lra. Defined.

(** ** The tabulated cross sections *)

Lemma sigmaPP_value s : exists v, sigmaPP (Fin s) = Fin v /\ 0 <= v.
Proof.
  destruct (Rlt_le_dec s (4 * me2)) as [Hs | Hs].
  - exists 0. split; [now apply sigmaPP_below | lra].
  - exists (ppR s). split; [now apply sigmaPP_fin | now apply ppR_nonneg].
Qed.

Lemma sigmaDPP_value s : exists v, sigmaDPP (Fin s) = Fin v /\ 0 <= v.
Proof.
  destruct (Rlt_le_dec s (16 * me2)) as [Hs | Hs].
  - exists 0. split; [now apply sigmaDPP_below | lra].
  - eexists. split; [now apply sigmaDPP_fin | now apply dpp_nonneg].
Qed.

Lemma sigmaICS_value s : me2 < s -> exists v, sigmaICS (Fin s) = Fin v /\ 0 < v.
Proof.
  intros Hs. exists (icsR s). split; [now apply sigmaICS_fin | now apply icsR_pos].
Qed.

Lemma sigmaTPP_value s : 0 <= s -> exists v, sigmaTPP (Fin s) = Fin v /\ 0 <= v.
Proof.
  intros H0. destruct (Rlt_le_dec s sTPP) as [Hs | Hs].
  - exists 0. split; [apply sigmaTPP_below; lra | lra].
  - eexists. split; [now apply sigmaTPP_fin | now apply tppR_nonneg].
Qed.

Lemma map_finite_values (f : npfloat -> npfloat) (skin : list R) :
  Forall (fun s => exists v, f (Fin s) = Fin v /\ 0 <= v) skin ->
  exists vs, map f (map Fin skin) = map Fin vs /\ length vs = length skin /\
             Forall (fun v => 0 <= v) vs.
Proof.
  induction 1 as [| s skin (v & Hv & Hv0) _ (vs & Hvs & Hlen & Hall)].
  - exists []. repeat split. constructor.
  - exists (v :: vs). cbn [map length]. rewrite Hv, Hvs, Hlen.
    repeat split. now constructor.
Qed.



Lemma getSmin_TPP : getSmin SigmaTPP = Ok (Fin (sTPP - me2)).
Proof.
  cbn [getSmin]. rewrite fmul_fin, fsub_fin. do 2 f_equal. unfold sTPP. ring.
Qed.



(** ** The grids of [process] *)

Lemma flt_fin_mono (m : npfloat) (x y : R) :
  (m <? Fin x)%fl = true -> x <= y -> (m <? Fin y)%fl = true.
Proof.
  destruct m as [a | | |]; cbn [flt]; intros Hx Hxy; try discriminate; try reflexivity.
  destruct (Rlt_dec a x); [| discriminate].
  destruct (Rlt_dec a y); [reflexivity | lra].
Qed.

Lemma sorted_hd_min (l : list R) e0 l' e :
  StronglySorted Rlt l -> l = e0 :: l' -> In e l -> e0 <= e.
Proof.
  intros Hs -> [<- | He]; [lra |].
  inversion Hs as [| ? ? _ Hall]; subst. rewrite Forall_forall in Hall.
  left. apply Hall. now apply list_elem_of_In.
Qed.

(** X6.  The tabulated particle energies are strictly increasing, lie above
    [Emin] and at most at [10^23 eV], and there is at least one exactly when
    [Emin < 10^23 eV]; [E[0]], which [process] uses for the smallest [s_kin]
    that a collision can reach, is the least of them. *)
Theorem tabulated_energies_increasing (Emin : R) :
  let E := List.filter (Rltb Emin) (grid 9 23 281 eV) in
  above (Fin Emin) (scale (logspace 9 23 281) eV) = map Fin E /\
  StronglySorted Rlt E /\
  Forall (fun e => Emin < e <= Rpower 10 23 * eV) E /\
  (E <> [] <-> Emin < Rpower 10 23 * eV) /\
  (forall e0 E' e, E = e0 :: E' -> In e E -> e0 <= e).
Proof.
  intros E. pose proof eV_pos as HeV.
  assert (Hsorted : StronglySorted Rlt E).
  { apply StronglySorted_filter, grid_sorted; [lra | exact HeV | lia]. }
  split; [apply energies_finite |]. split; [exact Hsorted |]. split; [| split].
  - apply Forall_forall. intros e He.
    apply list_elem_of_In, filter_In in He as [He Hlt].
    apply Rltb_true in Hlt. split; [exact Hlt |].
    apply (grid_upper 9 23 281 eV); [lra | exact HeV | lia | exact He].
  - split.
    + intros Hne. destruct E as [| e0 E'] eqn:HE; [now destruct Hne |].
      assert (He : In e0 (List.filter (Rltb Emin) (grid 9 23 281 eV))).
      { fold E. rewrite HE. now left. }
      apply filter_In in He as [He Hlt]. apply Rltb_true in Hlt.
      apply (grid_upper 9 23 281 eV) in He; [lra | lra | exact HeV | lia].
    + intros Hlt Hnil.
      pose proof (proj1 (filter_nil_iff _ _) Hnil _ (grid_last 9 23 281 eV ltac:(lia))) as Hl.
      apply Rltb_false in Hl. lra.
  - intros e0 E' e HE He. exact (sorted_hd_min E e0 E' e Hsorted HE He).
Qed.

(** X7.  The coarse [s_kin] grid that is saved is empty exactly when the fine
    grid is: [process] never saves columns for an empty source grid, nor the
    other way round. *)
Theorem coarse_empty_iff_fine_empty (skin_min : npfloat) :
  above skin_min (scale (logspace 4 23 (190 + 1)) (eV ** 2)%fl) = [] <->
  above skin_min (scale (logspace 4 23 (380000 + 1)) (eV ** 2)%fl) = [].
Proof.
  rewrite skin_finite, skin_save_finite. pose proof eV_pos as HeV.
  assert (HeV2 : 0 < eV ^ 2) by nra.
  split; intros Hnil; apply map_eq_nil in Hnil.
  - destruct (fine_skin skin_min) as [| x l] eqn:Hf; [reflexivity |]. exfalso.
    assert (Hx : In x (fine_skin skin_min)) by (rewrite Hf; now left).
    unfold fine_skin in Hx. apply filter_In in Hx as [Hx Hp].
    apply (grid_upper 4 23 (380000 + 1) (eV ^ 2)) in Hx; [| lra | exact HeV2 | lia].
    pose proof (flt_fin_mono skin_min _ _ Hp Hx) as Hlast.
    unfold coarse_skin in Hnil.
    pose proof (proj1 (filter_nil_iff _ _) Hnil _
                  (grid_last 4 23 (190 + 1) (eV ^ 2) ltac:(lia))) as Hl.
    cbv beta in Hl. rewrite Hlast in Hl. discriminate Hl.
  - destruct (coarse_skin skin_min) as [| x l] eqn:Hc; [reflexivity |]. exfalso.
    assert (Hx : In x (coarse_skin skin_min)) by (rewrite Hc; now left).
    apply coarse_in_fine in Hx. rewrite Hnil in Hx. destruct Hx.
Qed.

Lemma getTabulatedXS_entries (sigma : callable) (l : list R) :
  (forall f, sigma <> OtherFn f) ->
  getTabulatedXS sigma (map Fin l) = XSArray (map (xs_entry sigma) l).
Proof.
  intros Hknown.
  destruct sigma as [| | | | f]; cbn [getTabulatedXS is_fn orb call xs_entry];
    rewrite ?map_map; try reflexivity.
  now destruct (Hknown f).
Qed.

Lemma xs_entry_positive (sigma : callable) (smin s : R) :
  getSmin sigma = Ok (Fin smin) -> smin < s ->
  exists v, xs_entry sigma s = Fin v /\ 0 < v.
Proof.
  intros Hsmin Hs. pose proof me2_pos as Hm.
  destruct sigma as [| | | | f]; cbn [xs_entry call].
  - cbn [getSmin] in Hsmin. rewrite fmul_fin in Hsmin.
    assert (smin = 4 * me2) by congruence. subst smin.
    exists (ppR s). split; [apply sigmaPP_fin; lra | now apply ppR_pos].
  - cbn [getSmin] in Hsmin. rewrite fmul_fin in Hsmin.
    assert (smin = 16 * me2) by congruence. subst smin.
    eexists. split; [apply sigmaDPP_fin; lra | now apply dpp_pos].
  - cbn [getSmin] in Hsmin. rewrite fmul_fin in Hsmin.
    assert (smin = 1e-40 * me2) by congruence. subst smin.
    rewrite fadd_fin. apply sigmaICS_value. lra.
  - rewrite getSmin_TPP in Hsmin.
    assert (smin = sTPP - me2) by congruence. subst smin.
    rewrite fadd_fin. eexists. split; [apply sigmaTPP_fin; lra | apply tppR_pos; lra].
  - discriminate Hsmin.
Qed.



(** ** Runs of [process] *)

Lemma density_table_computed_when_missing_witness :
  (forall f, SigmaPP <> OtherFn f) /\
  is_Some (files (fst (process (H := sample_extern) SigmaPP flat_field
                         "EMPairProduction" empty_world))
           !! density_file flat_field) /\
  quad_calls (fst (process (H := sample_extern) SigmaPP flat_field
                     "EMPairProduction" empty_world))
  = (Z.to_nat 10000 + 0)%nat.
Proof.
  assert (Hknown : forall f, SigmaPP <> OtherFn f) by (intros f Hf; discriminate Hf).
  split; [exact Hknown |].
  destruct (density_table_computed_when_missing (H := sample_extern) SigmaPP flat_field
              "EMPairProduction" empty_world Hknown) as (Hsome & _ & Hmiss).
  split; [exact Hsome |]. apply Hmiss. apply lookup_empty.
Defined.

Lemma second_run_reuses_density_witness :
  (forall f, SigmaPP <> OtherFn f) /\
  quad_calls (fst (process (H := sample_extern) SigmaICS flat_field
                     "EMInverseComptonScattering"
                     (fst (process (H := sample_extern) SigmaPP flat_field
                             "EMPairProduction" empty_world))))
  = quad_calls (fst (process (H := sample_extern) SigmaPP flat_field
                       "EMPairProduction" empty_world)).
Proof.
  assert (Hknown : forall f, SigmaPP <> OtherFn f) by (intros f Hf; discriminate Hf).
  split; [exact Hknown |].
  exact (proj1 (second_run_reuses_density (H := sample_extern) SigmaPP SigmaICS flat_field
                  "EMPairProduction" "EMInverseComptonScattering" empty_world Hknown)).
Defined.

Lemma completed_run_cdf_table_witness :
  getEmin SigmaPP flat_field = Ok (4 * me2 / 4 / 1e-21)%fl /\
  getSmin SigmaPP = Ok (4 * me2)%fl /\
  exists w',
    process (H := sample_extern) SigmaPP flat_field "EMPairProduction" empty_world
    = (w', Ok tt) /\
    exists E0 E' t,
      above (4 * me2 / 4 / 1e-21)%fl (scale (logspace 9 23 281) eV) = E0 :: E' /\
      files w' !! cdf_file "EMPairProduction" flat_field = Some t /\
      length (rows t)
      = S (length (above (4 * me2 / 4 / 1e-21)%fl (scale (logspace 9 23 281) eV))).
Proof.
  split; [reflexivity |]. split; [reflexivity |].
  destruct pair_production_run as [w' Hrun]. exists w'. split; [exact Hrun |].
  destruct (completed_run_cdf_table (H := sample_extern) SigmaPP flat_field
              "EMPairProduction" empty_world w' _ _ eq_refl eq_refl Hrun)
    as (E0 & E' & t & HE & Ht & Hlen & _).
  exists E0, E', t. split; [exact HE |]. split; [exact Ht | exact Hlen].
Defined.

(** ** The lower bounds of the density integrals *)

Lemma Rpower10_log10 a : 0 < a -> Rpower 10 (ln a / ln 10) = a.
Proof.
  intros Ha. unfold Rpower.
  assert (Hl : 0 < ln 10) by (rewrite <- ln_1; apply ln_increasing; lra).
  replace (ln a / ln 10 * ln 10) with (ln a) by (field; lra).
  now apply exp_ln.
Qed.

Lemma flog10_fin a : 0 < a -> flog10 (Fin a) = Fin (ln a / ln 10).
Proof.
  intros Ha. unfold flog10. rewrite flog_fin by exact Ha.
  assert (Hl : 0 < ln 10) by (rewrite <- ln_1; apply ln_increasing; lra).
  apply fdiv_fin. lra.
Qed.

Lemma logspace_grid a b n :
  (1 < n)%Z -> logspace (Fin a) (Fin b) n = map Fin (grid a b n 1).
Proof.
  intros Hn. rewrite <- grid_spec by exact Hn. unfold scale.
  rewrite <- (map_id (logspace (Fin a) (Fin b) n)) at 1.
  apply map_ext_in. intros x Hx. unfold logspace in Hx.
  rewrite linspace_fin in Hx by exact Hn. rewrite map_map in Hx.
  apply in_map_iff in Hx as (i & <- & _). cbn [fpow10].
  rewrite fmul_fin. f_equal. lra.
Qed.

Lemma seqZ_snoc (n : Z) : (0 < n)%Z -> seqZ 0 n = seqZ 0 (n - 1) ++ [(n - 1)%Z].
Proof.
  intros Hn. replace n with ((n - 1) + 1)%Z at 1 by lia.
  rewrite seqZ_app by lia. reflexivity.
Qed.

Lemma grid_hd a b n c : (0 < n)%Z -> List.hd 0 (grid a b n c) = Rpower 10 a * c.
Proof.
  intros Hn. unfold grid. rewrite seqZ_cons by exact Hn. cbn [map List.hd].
  do 2 f_equal. lra.
Qed.

Lemma grid_last_eq a b n c :
  (1 < n)%Z -> List.last (grid a b n c) 0 = Rpower 10 b * c.
Proof.
  intros Hn. unfold grid. rewrite seqZ_snoc by lia.
  rewrite map_app. cbn [map]. rewrite last_last.
  do 2 f_equal. field. apply not_0_IZR. lia.
Qed.

Lemma grid_lower a b n c x :
  a < b -> 0 < c -> (1 < n)%Z -> In x (grid a b n c) -> Rpower 10 a * c <= x.
Proof.
  intros Hab Hc Hn Hx. apply grid_elem in Hx as (i & Hi & ->).
  apply Rmult_le_compat_r; [lra |]. apply Rle_Rpower; [lra |].
  assert (Hd : 0 < IZR (n - 1)) by (apply IZR_lt; lia).
  assert (Hi' : 0 <= IZR i) by (apply IZR_le; lia).
  assert (Hstep : 0 < (b - a) / IZR (n - 1)) by (apply Rdiv_lt_0_compat; lra).
  nra.
Qed.



